(** * Library catalogue: a shallow embedding of the TypeScript sources

    The development follows [src/models/LibraryItem.ts], [Book.ts],
    [AudioBook.ts] and [LibraryCatalogue.ts].

    - Items are the two concrete subclasses of the abstract class
      [LibraryItem]; an item value carries the fields set by its constructor.
    - JavaScript numbers used as ids and lengths are integers ([Z]).
      Integer arithmetic and decimal printing are what JavaScript computes
      for integers up to [Number.MAX_SAFE_INTEGER]; statements that depend
      on the digits of a length carry that bound.
    - Strings are [string] (8-bit characters).  [toLowerCase], [trim] and
      the white-space class of regular expressions are embedded on the
      ASCII range, where they are what JavaScript computes: [toLowerCase]
      folds [A]..[Z], and the white space is tab, line feed, vertical tab,
      form feed, carriage return and space.  Statements whose content
      depends on them are made for ASCII strings ([ascii_only]).
    - Arrays and catalogue objects live in a store indexed by references, so
      that aliasing between the catalogue's private array and the arrays it
      hands out is visible.  Methods are written in a small state-and-error
      monad: a method may return a value and a new store, or throw. *)

From stdpp Require Import base gmap list strings fin_maps pretty.
From Stdlib Require Import ZArith Ascii.

(* ================================================================== *)
(** ** Strings *)

Module JSString.

(** The double-quote character used in the console messages. *)
Definition dquote : string := String "034"%char EmptyString.

Definition is_upper (c : ascii) : bool :=
  ((65 <=? nat_of_ascii c) && (nat_of_ascii c <=? 90))%nat.

Definition lower_char (c : ascii) : ascii :=
  if is_upper c then ascii_of_nat (nat_of_ascii c + 32) else c.

(** [String.prototype.toLowerCase], character by character. *)
Fixpoint toLowerCase (s : string) : string :=
  match s with
  | EmptyString => EmptyString
  | String c s' => String (lower_char c) (toLowerCase s')
  end.

(** The strings on which the embedding of [toLowerCase], [trim] and the
    white-space class is exact: every character is below 128. *)
Definition is_ascii (c : ascii) : bool := (nat_of_ascii c <? 128)%nat.

Fixpoint ascii_only (s : string) : bool :=
  match s with
  | EmptyString => true
  | String c s' => is_ascii c && ascii_only s'
  end.

(** The letters of the ASCII range, each capital with its small
    letter. *)
Definition letter_pairs : list (ascii * ascii) :=
  zip (String.list_ascii_of_string "ABCDEFGHIJKLMNOPQRSTUVWXYZ")
      (String.list_ascii_of_string "abcdefghijklmnopqrstuvwxyz").

(** Two characters that are the same letter up to case: equal, or the
    capital and the small form of one letter. *)
Definition same_letter (c d : ascii) : Prop :=
  c = d ∨ (c, d) ∈ letter_pairs ∨ (d, c) ∈ letter_pairs.

(** The code points of the ASCII white space: tab, line feed, vertical
    tab, form feed, carriage return, space. *)
Definition white_space_codes : list nat := [9; 10; 11; 12; 13; 32].

Definition not_space (c : ascii) : Prop :=
  nat_of_ascii c ∉ white_space_codes.

(** Case-insensitive exact match, stated position by position: the two
    strings have the same length and agree up to case everywhere. *)
Inductive eq_ignore_case : string → string → Prop :=
| eic_nil : eq_ignore_case EmptyString EmptyString
| eic_cons c d s t :
    same_letter c d → eq_ignore_case s t →
    eq_ignore_case (String c s) (String d t).

End JSString.

(* ================================================================== *)
(** ** Items *)

(** The constructor functions (classes) of the concrete item kinds. *)
Inductive Class := BookClass | AudioBookClass.

(** [Function.prototype.name] of a class. *)
Definition name (c : Class) : string :=
  match c with
  | BookClass => "Book"
  | AudioBookClass => "AudioBook"
  end.

(** [class Book extends LibraryItem]: inherited [id], [title]; own
    [author], [ISBN]. *)
Record Book := new_Book {
  book_id : Z;
  book_title : string;
  author : string;
  ISBN : string
}.

(** [class AudioBook extends LibraryItem]: inherited [id], [title]; own
    [narrator], [length] (minutes). *)
Record AudioBook := new_AudioBook {
  audio_id : Z;
  audio_title : string;
  narrator : string;
  audio_length : Z
}.

(** A value of static type [LibraryItem] is an instance of one of the
    concrete subclasses. *)
Inductive LibraryItem :=
| ItemBook (b : Book)
| ItemAudioBook (a : AudioBook).

Coercion ItemBook : Book >-> LibraryItem.
Coercion ItemAudioBook : AudioBook >-> LibraryItem.

(** [this.constructor] *)
Definition constructor (item : LibraryItem) : Class :=
  match item with
  | ItemBook _ => BookClass
  | ItemAudioBook _ => AudioBookClass
  end.

Definition getId (item : LibraryItem) : Z :=
  match item with
  | ItemBook b => book_id b
  | ItemAudioBook a => audio_id a
  end.

Definition getTitle (item : LibraryItem) : string :=
  match item with
  | ItemBook b => book_title b
  | ItemAudioBook a => audio_title a
  end.

(** [return this.constructor.name;] *)
Definition getItemType (item : LibraryItem) : string :=
  name (constructor item).

(** [String.prototype.trim], exact on ASCII strings: the white space it
    strips there is the six characters of [JSString.white_space_codes]. *)
Module Trim.
Definition is_space (c : ascii) : bool :=
  let n := nat_of_ascii c in
  ((n =? 32) || ((9 <=? n) && (n <=? 13)))%nat.

Fixpoint trim_start (s : string) : string :=
  match s with
  | EmptyString => EmptyString
  | String c s' => if is_space c then trim_start s' else s
  end.

Fixpoint rev_string (acc s : string) : string :=
  match s with
  | EmptyString => acc
  | String c s' => rev_string (String c acc) s'
  end.

Definition trim (s : string) : string :=
  rev_string EmptyString
    (trim_start (rev_string EmptyString (trim_start s))).
End Trim.

(** The setters either store the trimmed value or throw an [Error] with
    the given message ([inr]). *)
Definition setAuthor (b : Book) (a : string) : Book + string :=
  if (0 <? String.length (Trim.trim a))%nat
  then inl (new_Book (book_id b) (book_title b) (Trim.trim a) (ISBN b))
  else inr "Author name cannot be empty".

Definition setISBN (b : Book) (i : string) : Book + string :=
  if (0 <? String.length (Trim.trim i))%nat
  then inl (new_Book (book_id b) (book_title b) (author b) (Trim.trim i))
  else inr "ISBN cannot be empty".

Definition setNarrator (a : AudioBook) (n : string) : AudioBook + string :=
  if (0 <? String.length (Trim.trim n))%nat
  then inl (new_AudioBook (audio_id a) (audio_title a) (Trim.trim n)
              (audio_length a))
  else inr "Narrator name cannot be empty".

Definition setLength (a : AudioBook) (len : Z) : AudioBook + string :=
  if (0 <? len)%Z
  then inl (new_AudioBook (audio_id a) (audio_title a) (narrator a) len)
  else inr "Length must be greater than 0 minutes".

(* ================================================================== *)
(** ** Array methods used by the catalogue *)

Module JSArray.
Section Methods.
Context {A : Type}.

(** [arr.push(x)]: the array afterwards. *)
Definition push (arr : list A) (x : A) : list A := arr ++ [x].

(** [arr.find(p)]: the first element satisfying [p], or [undefined]. *)
Fixpoint find (p : A → bool) (arr : list A) : option A :=
  match arr with
  | [] => None
  | x :: rest => if p x then Some x else find p rest
  end.

(** [arr.findIndex(p)]: the first index satisfying [p], or [-1]. *)
Fixpoint findIndex_from (k : Z) (p : A → bool) (arr : list A) : Z :=
  match arr with
  | [] => (-1)%Z
  | x :: rest => if p x then k else findIndex_from (k + 1)%Z p rest
  end.

Definition findIndex (p : A → bool) (arr : list A) : Z :=
  findIndex_from 0%Z p arr.

(** [arr.filter(p)]: a new array of the elements satisfying [p]. *)
Fixpoint filter (p : A → bool) (arr : list A) : list A :=
  match arr with
  | [] => []
  | x :: rest => if p x then x :: filter p rest else filter p rest
  end.

(** [arr.splice(start, deleteCount)]: the removed elements and the
    array afterwards.  A negative [start] counts from the end; both
    arguments are clamped to the array. *)
Definition splice (arr : list A) (start deleteCount : Z)
  : list A * list A :=
  let len := Z.of_nat (length arr) in
  let actualStart :=
    (if start <? 0 then Z.max (len + start) 0 else Z.min start len)%Z in
  let actualDeleteCount :=
    Z.min (Z.max deleteCount 0) (len - actualStart)%Z in
  let i := Z.to_nat actualStart in
  let n := Z.to_nat actualDeleteCount in
  (take n (drop i arr), take i arr ++ drop (i + n) arr).

(** [[...arr]]: the elements of a fresh array. *)
Definition spread (arr : list A) : list A := arr.
End Methods.
End JSArray.

(* ================================================================== *)
(** ** The store and the method monad *)

(** References to objects. *)
Definition loc := positive.

(** The objects of the program: arrays of items, and instances of
    [LibraryCatalogue], whose only field [libraryItems] refers to an
    array. *)
Inductive Obj :=
| ArrayObj (elems : list LibraryItem)
| CatalogueObj (libraryItems : loc).

(** The store: the objects, the static field [LibraryCatalogue.instance]
    ([None] while it is [undefined]) and the lines written by
    [console.log]. *)
Record Store := mkStore {
  heap : gmap loc Obj;
  instance : option loc;
  console : list string
}.

(** The store of a process that has not run anything yet. *)
Definition initial_store : Store := mkStore ∅ None [].

(** A computation either returns a value and a store, or throws. *)
Inductive Result (A : Type) :=
| Ok (v : A) (s : Store)
| Throw (msg : string).
Arguments Ok {A} v s.
Arguments Throw {A} msg.

Definition M (A : Type) : Type := Store → Result A.

Definition ret {A} (v : A) : M A := λ s, Ok v s.

Definition bind {A B} (m : M A) (k : A → M B) : M B :=
  λ s, match m s with
       | Ok v s' => k v s'
       | Throw msg => Throw msg
       end.

Definition throw {A} (msg : string) : M A := λ _, Throw msg.

Notation "'do' x <- m ; k" := (bind m (λ x, k))
  (at level 10, x name, m at level 100, k at level 200,
   format "'[v' 'do'  x  <-  m ; '/' k ']'").

(** [this.libraryItems]: the field read fails on anything that is not a
    catalogue. *)
Definition get_libraryItems (this : loc) : M loc :=
  λ s, match heap s !! this with
       | Some (CatalogueObj a) => Ok a s
       | _ => Throw "TypeError"
       end.

(** The elements of the array at [a]. *)
Definition read_array (a : loc) : M (list LibraryItem) :=
  λ s, match heap s !! a with
       | Some (ArrayObj arr) => Ok arr s
       | _ => Throw "TypeError"
       end.

(** In-place update of the array at [a]. *)
Definition write_array (a : loc) (arr : list LibraryItem) : M unit :=
  λ s, match heap s !! a with
       | Some (ArrayObj _) =>
           Ok tt (mkStore (<[a := ArrayObj arr]> (heap s))
                          (instance s) (console s))
       | _ => Throw "TypeError"
       end.

(** Allocation of a new object at a reference not in use. *)
Definition alloc (o : Obj) : M loc :=
  λ s, let r := fresh (dom (heap s)) in
       Ok r (mkStore (<[r := o]> (heap s)) (instance s) (console s)).

Definition console_log (line : string) : M unit :=
  λ s, Ok tt (mkStore (heap s) (instance s) (console s ++ [line])).

(** The items of the catalogue at [this], when [this] is a catalogue
    whose field refers to an array. *)
Definition catalogue_items (s : Store) (this : loc)
  : option (list LibraryItem) :=
  match heap s !! this with
  | Some (CatalogueObj a) =>
      match heap s !! a with
      | Some (ArrayObj arr) => Some arr
      | _ => None
      end
  | _ => None
  end.

(** The elements of the array at [r]. *)
Definition array_elems (s : Store) (r : loc) : option (list LibraryItem) :=
  match heap s !! r with
  | Some (ArrayObj arr) => Some arr
  | _ => None
  end.

(** [s'] has the same static instance and the same catalogue objects
    as [s]. *)
Definition same_catalogues (s s' : Store) : Prop :=
  instance s' = instance s
  ∧ ∀ r a, heap s' !! r = Some (CatalogueObj a)
           ↔ heap s !! r = Some (CatalogueObj a).

(** [c] is the one catalogue of the store: the static field refers to
    it, it is well formed, and every catalogue object of the store is
    [c]. *)
Definition only_catalogue (s : Store) (c : loc) : Prop :=
  instance s = Some c
  ∧ is_Some (catalogue_items s c)
  ∧ ∀ r a, heap s !! r = Some (CatalogueObj a) → r = c.

(** No catalogue has been constructed. *)
Definition no_catalogue (s : Store) : Prop :=
  instance s = None ∧ ∀ r a, heap s !! r ≠ Some (CatalogueObj a).

(* ================================================================== *)
(** ** LibraryCatalogue *)

Import JSString.

(** The result of [getStatistics]. *)
Record Statistics := mkStatistics {
  total : nat;
  byType : gmap string nat
}.

(** [(byType[type] || 0) + 1]: a missing key reads as [undefined] and a
    zero is falsy; both give [0] on the left of the sum.  The keys are
    the class names [Book] and [AudioBook]; neither is a property an
    object literal inherits, so a key that was never stored is missing. *)
Definition or_zero (v : option nat) : nat :=
  match v with
  | Some n => if (n =? 0)%nat then 0%nat else n
  | None => 0%nat
  end.

Definition count_type (byType : gmap string nat) (type : string)
  : gmap string nat :=
  <[type := (or_zero (byType !! type) + 1)%nat]> byType.

Module LibraryCatalogue.

(** [private constructor() { this.libraryItems = []; }], as run by
    [new LibraryCatalogue()]. *)
Definition new : M loc :=
  do a <- alloc (ArrayObj []);
  alloc (CatalogueObj a).

Definition getInstance : M loc :=
  λ s, match instance s with
       | None =>
           (do c <- new;
            λ s', Ok c (mkStore (heap s') (Some c) (console s'))) s
       | Some c => Ok c s
       end.

Definition addItem (this : loc) (item : LibraryItem) : M unit :=
  do a <- get_libraryItems this;
  do arr <- read_array a;
  do _ <- write_array a (JSArray.push arr item);
  console_log (getItemType item +:+ " " +:+ dquote +:+ getTitle item
               +:+ dquote +:+ " has been added to the catalogue.").

Definition getItemCount (this : loc) : M nat :=
  do a <- get_libraryItems this;
  do arr <- read_array a;
  ret (length arr).

Definition findItemByTitle (this : loc) (title : string)
  : M (option LibraryItem) :=
  do a <- get_libraryItems this;
  do arr <- read_array a;
  ret (JSArray.find
         (λ item, String.eqb (toLowerCase (getTitle item))
                             (toLowerCase title)) arr).

Definition findItemsByType (this : loc) (itemType : string) : M loc :=
  do a <- get_libraryItems this;
  do arr <- read_array a;
  alloc (ArrayObj (JSArray.filter
                     (λ item, String.eqb (getItemType item) itemType)
                     arr)).

Definition getAllItems (this : loc) : M loc :=
  do a <- get_libraryItems this;
  do arr <- read_array a;
  alloc (ArrayObj (JSArray.spread arr)).

Definition removeItem (this : loc) (id : Z) : M bool :=
  do a <- get_libraryItems this;
  do arr <- read_array a;
  let index := JSArray.findIndex (λ item, (getId item =? id)%Z) arr in
  if (index >? -1)%Z then
    let '(removed, rest) := JSArray.splice arr index 1 in
    do _ <- write_array a rest;
    match removed !! 0%nat with
    | Some removedItem =>
        do _ <- console_log
              (getItemType removedItem +:+ " " +:+ dquote
               +:+ getTitle removedItem +:+ dquote
               +:+ " has been removed from the catalogue.");
        ret true
    | None => throw "TypeError"
    end
  else ret false.

Definition getStatistics (this : loc) : M Statistics :=
  do a <- get_libraryItems this;
  do arr <- read_array a;
  let stats := mkStatistics (length arr) ∅ in
  ret (foldl (λ stats item,
                let type := getItemType item in
                mkStatistics (total stats) (count_type (byType stats) type))
             stats arr).

(** The deprecated methods kept for backward compatibility. *)
Definition addBook (this : loc) (book : Book) : M unit :=
  addItem this book.

Definition getBookCount (this : loc) : M nat :=
  getItemCount this.

Definition findBookByTitle (this : loc) (title : string)
  : M (option LibraryItem) :=
  findItemByTitle this title.

Definition getAllBooks (this : loc) : M loc :=
  getAllItems this.

End LibraryCatalogue.

(* ================================================================== *)
(** ** Clients of the catalogue *)

(** An interleaving of [addItem] and [removeItem] calls on one
    catalogue. *)
Inductive Op :=
| OpAdd (item : LibraryItem)
| OpRemove (id : Z).

(** Runs the calls in order and collects what the [removeItem] calls
    returned. *)
Fixpoint run_ops (this : loc) (ops : list Op) : M (list bool) :=
  match ops with
  | [] => ret []
  | OpAdd item :: rest =>
      do _ <- LibraryCatalogue.addItem this item;
      run_ops this rest
  | OpRemove id :: rest =>
      do b <- LibraryCatalogue.removeItem this id;
      do bs <- run_ops this rest;
      ret (b :: bs)
  end.

(** The number of [addItem] calls in an interleaving. *)
Fixpoint count_adds (ops : list Op) : nat :=
  match ops with
  | [] => 0
  | OpAdd _ :: rest => S (count_adds rest)
  | OpRemove _ :: rest => count_adds rest
  end.

(** The number of calls that returned [true]. *)
Fixpoint count_true (bs : list bool) : nat :=
  match bs with
  | [] => 0
  | true :: rest => S (count_true rest)
  | false :: rest => count_true rest
  end.

(** The public instance methods, as a client may invoke them. *)
Inductive Method :=
| MAddItem (item : LibraryItem)
| MRemoveItem (id : Z)
| MGetItemCount
| MFindItemByTitle (title : string)
| MFindItemsByType (itemType : string)
| MGetAllItems
| MGetStatistics.

Definition invoke (m : Method) (this : loc) : M unit :=
  match m with
  | MAddItem item => LibraryCatalogue.addItem this item
  | MRemoveItem id => do _ <- LibraryCatalogue.removeItem this id; ret tt
  | MGetItemCount => do _ <- LibraryCatalogue.getItemCount this; ret tt
  | MFindItemByTitle t =>
      do _ <- LibraryCatalogue.findItemByTitle this t; ret tt
  | MFindItemsByType t =>
      do _ <- LibraryCatalogue.findItemsByType this t; ret tt
  | MGetAllItems => do _ <- LibraryCatalogue.getAllItems this; ret tt
  | MGetStatistics => do _ <- LibraryCatalogue.getStatistics this; ret tt
  end.

(** A client step: either a call of the static [getInstance], or a method
    invoked through the [k]-th reference the client has obtained so far.
    The constructor is private, so [getInstance] is the client's only
    source of catalogue references. *)
Inductive Call :=
| CallGetInstance
| CallMethod (k : nat) (m : Method).

(** Runs a client from the references [refs] it already holds and returns
    every reference it holds at the end, in the order obtained.  A method
    call through a reference the client does not hold is not a call. *)
Fixpoint run_calls (calls : list Call) (refs : list loc) : M (list loc) :=
  match calls with
  | [] => ret refs
  | CallGetInstance :: rest =>
      do c <- LibraryCatalogue.getInstance;
      run_calls rest (refs ++ [c])
  | CallMethod k m :: rest =>
      match refs !! k with
      | Some c => do _ <- invoke m c; run_calls rest refs
      | None => run_calls rest refs
      end
  end.

(** The sum of the counts stored in a [byType] mapping. *)
Definition sum_counts (byType : gmap string nat) : nat :=
  map_fold (λ _ n acc, n + acc) 0 byType.

(** The number of items of a sequence whose discriminator is [type]. *)
Definition count_of_type (type : string) (items : list LibraryItem) : nat :=
  length (base.filter (λ item, getItemType item = type) items).

(* ================================================================== *)
(** ** A sample run *)

Module Sample.
Definition gatsby : Book :=
  new_Book 1 "The Great Gatsby" "F. Scott Fitzgerald" "978-0-7432-7356-5".
Definition nineteen84 : Book :=
  new_Book 2 "1984" "George Orwell" "978-0-452-28423-4".
Definition dune : AudioBook :=
  new_AudioBook 3 "Dune" "Simon Vance" 1260.

Definition items : list LibraryItem :=
  [ItemBook gatsby; ItemBook nineteen84; ItemAudioBook dune].

(** The store after [getInstance()] in a new process. *)
Definition empty_store : Store :=
  match LibraryCatalogue.getInstance initial_store with
  | Ok _ s => s
  | Throw _ => initial_store
  end.

(** The reference [getInstance()] returns there. *)
Definition catalogue : loc := 2%positive.

(** The store after the three items have been added. *)
Definition store : Store :=
  match run_ops catalogue (OpAdd <$> items) empty_store with
  | Ok _ s => s
  | Throw _ => initial_store
  end.
End Sample.

(** A string that does not begin with white space. *)
Definition clean_start (s : string) : Prop :=
  match s with
  | EmptyString => True
  | String c _ => Trim.is_space c = false
  end.

(* ================================================================== *)
(** ** Rendering of items and the catalogue listing *)

(** [Number.MAX_SAFE_INTEGER], 2^53 - 1. *)
Definition MAX_SAFE_INTEGER : Z := 9007199254740991.

(** A number inside a template literal; ids, lengths and counts are
    integers and print in decimal.  This is what JavaScript prints for an
    integer of magnitude up to [MAX_SAFE_INTEGER]. *)
Definition number_to_string (n : Z) : string := pretty n.

(** A string of decimal digits. *)
Definition is_digit (c : ascii) : bool :=
  ((48 <=? nat_of_ascii c) && (nat_of_ascii c <=? 57))%nat.

Fixpoint digits (s : string) : Prop :=
  match s with
  | EmptyString => True
  | String c s' => is_digit c = true ∧ digits s'
  end.

(** [AudioBook.formatLength]: [Math.floor(length / 60)] hours and
    [length % 60] minutes, where [%] takes the sign of [length].  The
    integer quotient is what [Math.floor(length / 60)] gives for a length
    of magnitude up to [MAX_SAFE_INTEGER]. *)
Definition formatLength (a : AudioBook) : string :=
  let hours := (audio_length a / 60)%Z in
  let minutes := Z.rem (audio_length a) 60 in
  if (hours >? 0)%Z
  then number_to_string hours +:+ "h " +:+ number_to_string minutes +:+ "m"
  else number_to_string minutes +:+ "m".

Definition getLengthFormatted (a : AudioBook) : string := formatLength a.

(** [return this.length > 480;] *)
Definition isLongAudioBook (a : AudioBook) : bool :=
  (audio_length a >? 480)%Z.

(** [LibraryItem.getBasicInfo] and its overrides in [Book] and
    [AudioBook], which extend [super.getBasicInfo()]. *)
Definition super_getBasicInfo (item : LibraryItem) : string :=
  "ID: " +:+ number_to_string (getId item) +:+ ", Title: " +:+ getTitle item.

Definition getBasicInfo (item : LibraryItem) : string :=
  match item with
  | ItemBook b => super_getBasicInfo item +:+ ", Author: " +:+ author b
  | ItemAudioBook a =>
      super_getBasicInfo item +:+ ", Narrator: " +:+ narrator a
  end.

(** [display()], dispatched on the class of the item. *)
Definition display (item : LibraryItem) : M unit :=
  match item with
  | ItemBook b =>
      do _ <- console_log ("Book ID: " +:+ number_to_string (book_id b));
      do _ <- console_log ("Title: " +:+ book_title b);
      do _ <- console_log ("Author: " +:+ author b);
      do _ <- console_log ("ISBN: " +:+ ISBN b);
      console_log "-------------------"
  | ItemAudioBook a =>
      do _ <- console_log ("Audio Book ID: "
                           +:+ number_to_string (audio_id a));
      do _ <- console_log ("Title: " +:+ audio_title a);
      do _ <- console_log ("Narrator: " +:+ narrator a);
      do _ <- console_log ("Length: " +:+ formatLength a);
      console_log "-------------------"
  end.

(** [arr.forEach((item, index) => f(item, index))], from index [k]. *)
Fixpoint forEach_from (k : nat) (f : LibraryItem → nat → M unit)
    (arr : list LibraryItem) : M unit :=
  match arr with
  | [] => ret tt
  | item :: rest => do _ <- f item k; forEach_from (S k) f rest
  end.

(** [LibraryCatalogue.displayItems]. *)
Definition displayItems (this : loc) : M unit :=
  do a <- get_libraryItems this;
  do arr <- read_array a;
  if (length arr =? 0)%nat then
    console_log "The library catalogue is empty."
  else
    do _ <- console_log "=== LIBRARY CATALOGUE ===";
    do _ <- console_log ("Total items: "
                         +:+ number_to_string (Z.of_nat (length arr)));
    do _ <- console_log EmptyString;
    forEach_from 0
      (λ item index,
         do _ <- console_log ("Item "
                              +:+ number_to_string (Z.of_nat (index + 1))
                              +:+ ":");
         display item)
      arr.

(** The lines [display()] writes for an item, and the lines
    [displayItems] writes for the items of an array from index [k]. *)
Definition display_lines (item : LibraryItem) : list string :=
  match item with
  | ItemBook b =>
      ["Book ID: " +:+ number_to_string (book_id b);
       "Title: " +:+ book_title b;
       "Author: " +:+ author b;
       "ISBN: " +:+ ISBN b;
       "-------------------"]
  | ItemAudioBook a =>
      ["Audio Book ID: " +:+ number_to_string (audio_id a);
       "Title: " +:+ audio_title a;
       "Narrator: " +:+ narrator a;
       "Length: " +:+ formatLength a;
       "-------------------"]
  end.

Fixpoint listing_lines (k : nat) (arr : list LibraryItem) : list string :=
  match arr with
  | [] => []
  | item :: rest =>
      ("Item " +:+ number_to_string (Z.of_nat (k + 1)) +:+ ":")
        :: display_lines item ++ listing_lines (S k) rest
  end.

(** The number of items of a sequence whose id is [id]. *)
Definition count_of_id (id : Z) (items : list LibraryItem) : nat :=
  length (base.filter (λ item, getId item = id) items).

(* ================================================================== *)
(** ** The first version of the catalogue

    The class [LibraryCatalogue] as first written: a public constructor
    and an array of books.  Its objects have the same layout as those of
    the later class. *)

Module LibraryCatalogueV1.

(** [constructor() { this.libraryItems = []; }] *)
Definition new : M loc :=
  do a <- alloc (ArrayObj []);
  alloc (CatalogueObj a).

Definition addItem (this : loc) (item : Book) : M unit :=
  do a <- get_libraryItems this;
  do arr <- read_array a;
  do _ <- write_array a (JSArray.push arr (ItemBook item));
  console_log ("Book " +:+ JSString.dquote +:+ book_title item
               +:+ JSString.dquote +:+ " has been added to the catalogue.").

Definition getBookCount (this : loc) : M nat :=
  do a <- get_libraryItems this;
  do arr <- read_array a;
  ret (length arr).

Definition findBookByTitle (this : loc) (title : string)
  : M (option LibraryItem) :=
  do a <- get_libraryItems this;
  do arr <- read_array a;
  ret (JSArray.find
         (λ book, String.eqb (JSString.toLowerCase (getTitle book))
                             (JSString.toLowerCase title)) arr).

Definition getAllBooks (this : loc) : M loc :=
  do a <- get_libraryItems this;
  do arr <- read_array a;
  alloc (ArrayObj (JSArray.spread arr)).

End LibraryCatalogueV1.

(* ================================================================== *)
(** ** Regular expressions *)

(** The fragment of regular expressions used by [User.setEmail], with a
    matcher by derivatives.  [RegExp.prototype.test] on a pattern
    anchored at both ends asks whether the whole string matches. *)
Module Regex.

Inductive re :=
| Void
| Eps
| Class (p : ascii → bool)
| Cat (r1 r2 : re)
| Alt (r1 r2 : re)
| Star (r : re).

(** [r+] *)
Definition Plus (r : re) : re := Cat r (Star r).

Fixpoint nullable (r : re) : bool :=
  match r with
  | Void => false
  | Eps => true
  | Class _ => false
  | Cat r1 r2 => nullable r1 && nullable r2
  | Alt r1 r2 => nullable r1 || nullable r2
  | Star _ => true
  end.

Fixpoint deriv (c : ascii) (r : re) : re :=
  match r with
  | Void => Void
  | Eps => Void
  | Class p => if p c then Eps else Void
  | Cat r1 r2 =>
      if nullable r1
      then Alt (Cat (deriv c r1) r2) (deriv c r2)
      else Cat (deriv c r1) r2
  | Alt r1 r2 => Alt (deriv c r1) (deriv c r2)
  | Star r1 => Cat (deriv c r1) (Star r1)
  end.

Fixpoint matches (r : re) (s : string) : bool :=
  match s with
  | EmptyString => nullable r
  | String c s' => matches (deriv c r) s'
  end.

(** The strings a regular expression denotes. *)
Inductive lang : re → string → Prop :=
| lang_eps : lang Eps EmptyString
| lang_class p c : p c = true → lang (Class p) (String c EmptyString)
| lang_cat r1 r2 s1 s2 :
    lang r1 s1 → lang r2 s2 → lang (Cat r1 r2) (s1 +:+ s2)
| lang_alt_l r1 r2 s : lang r1 s → lang (Alt r1 r2) s
| lang_alt_r r1 r2 s : lang r2 s → lang (Alt r1 r2) s
| lang_star_nil r : lang (Star r) EmptyString
| lang_star_cons r s1 s2 :
    lang r s1 → lang (Star r) s2 → lang (Star r) (s1 +:+ s2).

(** Every character class of [r] gives the same answer on [c] and on
    [f c]. *)
Fixpoint classes_respect (f : ascii → ascii) (r : re) : Prop :=
  match r with
  | Void | Eps => True
  | Class p => ∀ c, p (f c) = p c
  | Cat r1 r2 | Alt r1 r2 => classes_respect f r1 ∧ classes_respect f r2
  | Star r1 => classes_respect f r1
  end.

End Regex.

(* ================================================================== *)
(** ** User *)

Module User.

Record User := mkUser {
  name : string;
  email : string;
  borrowedBooks : list string
}.

(** [arr.includes(x)] and [arr.indexOf(x)] on an array of strings. *)
Definition includes (arr : list string) (x : string) : bool :=
  existsb (λ y, String.eqb y x) arr.

Definition indexOf (arr : list string) (x : string) : Z :=
  JSArray.findIndex (λ y, String.eqb y x) arr.

(** [[^\s@]]: any character that is neither white space nor [@]; exact
    on ASCII characters, where the white space is that of [Trim]. *)
Definition local_char (c : ascii) : bool :=
  negb (Trim.is_space c || Ascii.eqb c "@"%char).

(** [/^[^\s@]+@[^\s@]+\.[^\s@]+$/] *)
Definition emailRegex : Regex.re :=
  Regex.Cat (Regex.Plus (Regex.Class local_char))
    (Regex.Cat (Regex.Class (Ascii.eqb "@"%char))
       (Regex.Cat (Regex.Plus (Regex.Class local_char))
          (Regex.Cat (Regex.Class (Ascii.eqb "."%char))
             (Regex.Plus (Regex.Class local_char))))).

(** The setters return the updated user or the message of the [Error]
    they throw. *)
Definition setName (u : User) (n : string) : User + string :=
  if String.eqb n EmptyString
     || (String.length (Trim.trim n) =? 0)%nat
  then inr "Name cannot be empty"
  else if (String.length (Trim.trim n) <? 2)%nat
  then inr "Name must be at least 2 characters long"
  else inl (mkUser (Trim.trim n) (email u) (borrowedBooks u)).

Definition setEmail (u : User) (e : string) : User + string :=
  if String.eqb e EmptyString
     || (String.length (Trim.trim e) =? 0)%nat
  then inr "Email cannot be empty"
  else if negb (Regex.matches emailRegex (Trim.trim e))
  then inr "Invalid email format"
  else inl (mkUser (name u) (JSString.toLowerCase (Trim.trim e))
              (borrowedBooks u)).

(** [new User(name, email)]: the constructor runs the two setters on the
    new object, whose fields are not yet set, and then starts the list of
    borrowed books empty. *)
Definition new (n e : string) : User + string :=
  let this := mkUser EmptyString EmptyString [] in
  match setName this n with
  | inr msg => inr msg
  | inl this1 =>
      match setEmail this1 e with
      | inr msg => inr msg
      | inl this2 => inl (mkUser (name this2) (email this2) [])
      end
  end.

(** The methods that write to the console return the user afterwards
    and the line written. *)
Definition borrowBook (u : User) (bookTitle : string) : User * string :=
  if negb (includes (borrowedBooks u) bookTitle) then
    (mkUser (name u) (email u) (JSArray.push (borrowedBooks u) bookTitle),
     name u +:+ " has borrowed the book: " +:+ JSString.dquote
     +:+ bookTitle +:+ JSString.dquote)
  else
    (u, name u +:+ " has already borrowed: " +:+ JSString.dquote
        +:+ bookTitle +:+ JSString.dquote).

Definition returnBook (u : User) (bookTitle : string) : User * string :=
  let index := indexOf (borrowedBooks u) bookTitle in
  if (index >? -1)%Z then
    (mkUser (name u) (email u)
       (snd (JSArray.splice (borrowedBooks u) index 1)),
     name u +:+ " has returned the book: " +:+ JSString.dquote
     +:+ bookTitle +:+ JSString.dquote)
  else
    (u, name u +:+ " has not borrowed: " +:+ JSString.dquote
        +:+ bookTitle +:+ JSString.dquote).

Definition hasBorrowed (u : User) (bookTitle : string) : bool :=
  includes (borrowedBooks u) bookTitle.

Definition getBorrowedBooksCount (u : User) : nat :=
  length (borrowedBooks u).

(** A sequence of calls of [borrowBook] and [returnBook]. *)
Inductive Action :=
| Borrow (bookTitle : string)
| Return (bookTitle : string).

Definition act (u : User) (a : Action) : User :=
  match a with
  | Borrow t => fst (borrowBook u t)
  | Return t => fst (returnBook u t)
  end.

Definition run_actions (u : User) (actions : list Action) : User :=
  foldl act u actions.

(** A string with no white space at either end: neither the first nor
    the last character is white space. *)
Definition no_outer_space (s : string) : Prop :=
  match s with
  | EmptyString => True
  | String c _ => JSString.not_space c
  end
  ∧ match Trim.rev_string EmptyString s with
    | EmptyString => True
    | String c _ => JSString.not_space c
    end.

(** The shape the pattern of [setEmail] asks for: a local part, [@], and
    a domain with a dot inside, all without white space or further
    [@]. *)
Definition email_shape (s : string) : Prop :=
  ∃ l d1 d2,
    s = l +:+ "@" +:+ d1 +:+ "." +:+ d2
    ∧ l ≠ EmptyString ∧ d1 ≠ EmptyString ∧ d2 ≠ EmptyString
    ∧ (∀ c, c ∈ String.list_ascii_of_string (l +:+ d1 +:+ d2) →
            c ≠ "@"%char ∧ JSString.not_space c).

(** A string without capital letters. *)
Definition no_capital (s : string) : Prop :=
  ∀ c, c ∈ String.list_ascii_of_string s →
       ∀ d, (c, d) ∉ JSString.letter_pairs.

(** What every [User] object built from ASCII text satisfies. *)
Definition valid (u : User) : Prop :=
  JSString.ascii_only (name u) = true
  ∧ JSString.ascii_only (email u) = true
  ∧ 2 ≤ String.length (name u)
  ∧ no_outer_space (name u)
  ∧ email_shape (email u)
  ∧ no_capital (email u)
  ∧ NoDup (borrowedBooks u).

End User.

(** A sample user and a sample audio book. *)
Module SampleUser.
Definition alice : User.User :=
  User.mkUser "Alice Johnson" "alice.johnson@email.com" [].

Definition reader : User.User :=
  User.mkUser "Bob Smith" "bob.smith@email.com"
    ["To Kill a Mockingbird"; "Pride and Prejudice"].

Definition nineteen84_audio : AudioBook :=
  new_AudioBook 101 "1984" "Simon Prebble" 720.
End SampleUser.

(* ================================================================== *)
(** * Properties *)

(** ** The array methods *)

Section ArrayFacts.
Context {A : Type}.
Implicit Types (p : A → bool) (arr : list A).

Lemma find_Some p arr x :
  JSArray.find p arr = Some x ↔
  ∃ before after,
    arr = before ++ x :: after ∧ p x = true
    ∧ Forall (λ y, p y = false) before.
Proof.
  induction arr as [|y rest IH]; simpl.
  - split; [done|]. intros ([|??] & ? & ? & _); done.
  - destruct (p y) eqn:Hy.
    + split.
      * intros [= ->]. exists [], rest. by repeat constructor.
      * intros ([|z before] & after & Heq & Hx & Hb); simplify_eq/=; [done|].
        inversion Hb; congruence.
    + rewrite IH. split.
      * intros (before & after & -> & Hx & Hb).
        exists (y :: before), after. by repeat constructor.
      * intros ([|z before] & after & Heq & Hx & Hb); simplify_eq/=;
          [congruence|].
        inversion Hb; subst. by exists before, after.
Qed.

Lemma find_None p arr :
  JSArray.find p arr = None ↔ Forall (λ y, p y = false) arr.
Proof.
  induction arr as [|y rest IH]; simpl; [by split; constructor|].
  destruct (p y) eqn:Hy.
  - split; [done|]. inversion 1; congruence.
  - rewrite IH. split; [by constructor|]. by inversion 1.
Qed.

Lemma findIndex_from_found p before x after k :
  p x = true → Forall (λ y, p y = false) before →
  JSArray.findIndex_from k p (before ++ x :: after)
  = (k + Z.of_nat (length before))%Z.
Proof.
  intros Hx Hb. revert k.
  induction Hb as [|y before Hy _ IH]; intros k; simpl.
  - rewrite Hx. lia.
  - rewrite Hy, IH. lia.
Qed.

Lemma findIndex_from_absent p arr k :
  Forall (λ y, p y = false) arr → JSArray.findIndex_from k p arr = (-1)%Z.
Proof.
  intros H. revert k. induction H as [|y rest Hy _ IH]; intros k; simpl.
  - done.
  - by rewrite Hy, IH.
Qed.

(** Every array splits at its first element satisfying [p], unless no
    element does. *)
Lemma first_split p arr :
  (∃ before x after,
      arr = before ++ x :: after ∧ p x = true
      ∧ Forall (λ y, p y = false) before)
  ∨ Forall (λ y, p y = false) arr.
Proof.
  destruct (JSArray.find p arr) as [x|] eqn:Hf.
  - left. apply find_Some in Hf as (before & after & ?). by exists before, x, after.
  - right. by apply find_None.
Qed.

Lemma splice_one (before : list A) (x : A) (after : list A) :
  JSArray.splice (before ++ x :: after) (Z.of_nat (length before)) 1
  = ([x], before ++ after).
Proof.
  unfold JSArray.splice.
  rewrite length_app. simpl length.
  assert ((Z.of_nat (length before) <? 0)%Z = false) as ->
    by (apply Z.ltb_ge; lia).
  replace (Z.min (Z.of_nat (length before))
             (Z.of_nat (length before + S (length after))))
    with (Z.of_nat (length before)) by lia.
  replace (Z.min (Z.max 1 0)
     (Z.of_nat (length before + S (length after))
      - Z.of_nat (length before))) with 1%Z by lia.
  rewrite Nat2Z.id. change (Z.to_nat 1) with 1%nat.
  rewrite drop_app_length, take_app_length. simpl. f_equal.
  f_equal. rewrite drop_app_ge by lia.
  replace (length before + 1 - length before)%nat with 1%nat by lia.
  done.
Qed.

Lemma filter_sublist p arr : JSArray.filter p arr `sublist_of` arr.
Proof.
  induction arr as [|y rest IH]; simpl; [constructor|].
  destruct (p y); by constructor.
Qed.

Lemma filter_Forall p arr : Forall (λ y, p y = true) (JSArray.filter p arr).
Proof.
  induction arr as [|y rest IH]; simpl; [constructor|].
  destruct (p y) eqn:Hy; [by constructor|done].
Qed.

Lemma filter_greatest p arr l :
  l `sublist_of` arr → Forall (λ y, p y = true) l →
  l `sublist_of` JSArray.filter p arr.
Proof.
  induction 1 as [|y l rest _ IH|y l rest _ IH]; simpl; intros Hl.
  - constructor.
  - inversion Hl as [|?? Hy Hl']; subst. rewrite Hy. constructor. auto.
  - destruct (p y); [constructor|]; auto.
Qed.

Lemma filter_none p arr :
  Forall (λ y, p y = false) arr → JSArray.filter p arr = [].
Proof.
  induction 1 as [|y rest Hy _ IH]; simpl; [done|]. by rewrite Hy.
Qed.

Lemma filter_stdpp p (P : A → Prop) `{!∀ x, Decision (P x)} arr :
  (∀ x, p x = true ↔ P x) →
  JSArray.filter p arr = base.filter P arr.
Proof.
  intros Hp. induction arr as [|y rest IH]; simpl; [done|].
  rewrite filter_cons. destruct (p y) eqn:Hy.
  - rewrite decide_True by by apply Hp. by rewrite IH.
  - rewrite decide_False; [done|]. rewrite <-Hp. congruence.
Qed.
End ArrayFacts.

(** ** Lower-casing and case-insensitive equality *)

Section StringFacts.
Import JSString.

Lemma is_upper_spec c :
  is_upper c = true ↔ 65 ≤ nat_of_ascii c ≤ 90.
Proof. unfold is_upper. by rewrite andb_true_iff, !Nat.leb_le. Qed.

Lemma nat_of_ascii_inj c d : nat_of_ascii c = nat_of_ascii d → c = d.
Proof.
  intros H. rewrite <-(ascii_nat_embedding c), <-(ascii_nat_embedding d).
  by rewrite H.
Qed.

Lemma nat_of_lower_char c :
  nat_of_ascii (lower_char c)
  = if is_upper c then nat_of_ascii c + 32 else nat_of_ascii c.
Proof.
  unfold lower_char. destruct (is_upper c) eqn:Hc; [|done].
  apply is_upper_spec in Hc. apply nat_ascii_embedding. lia.
Qed.

(** The table of letters lists each capital with the character 32 code
    points above it. *)
Lemma letter_pairs_spec c d :
  (c, d) ∈ letter_pairs
  ↔ is_upper c = true ∧ nat_of_ascii d = nat_of_ascii c + 32.
Proof.
  split.
  - unfold letter_pairs. cbn [zip zip_with String.list_ascii_of_string].
    intros H.
    repeat (apply elem_of_cons in H as [H|H];
            [injection H as -> ->; split; reflexivity|]).
    by apply not_elem_of_nil in H.
  - intros [Hc Hd].
    assert (d = lower_char c) as ->.
    { apply nat_of_ascii_inj. by rewrite nat_of_lower_char, Hc. }
    clear Hd. revert Hc.
    destruct c as [[] [] [] [] [] [] [] []]; intros Hc;
      vm_compute in Hc; try discriminate Hc;
      apply (bool_decide_unpack _); vm_compute; exact I.
Qed.

Lemma lower_char_eq c d : lower_char c = lower_char d ↔ same_letter c d.
Proof.
  unfold same_letter. rewrite !letter_pairs_spec. split.
  - intros H%(f_equal nat_of_ascii). rewrite !nat_of_lower_char in H.
    destruct (is_upper c) eqn:Hc, (is_upper d) eqn:Hd.
    + left. apply nat_of_ascii_inj. lia.
    + right; left. split; [done|]. lia.
    + right; right. split; [done|]. lia.
    + left. by apply nat_of_ascii_inj.
  - intros H. apply nat_of_ascii_inj. rewrite !nat_of_lower_char.
    destruct H as [->|[[Hc Hd]|[Hd Hc]]]; [done| |].
    + rewrite Hc. apply is_upper_spec in Hc.
      destruct (is_upper d) eqn:Hd'; [|done].
      apply is_upper_spec in Hd'. lia.
    + rewrite Hd. apply is_upper_spec in Hd.
      destruct (is_upper c) eqn:Hc'; [|done].
      apply is_upper_spec in Hc'. lia.
Qed.

Lemma toLowerCase_eq s t :
  toLowerCase s = toLowerCase t ↔ eq_ignore_case s t.
Proof.
  split.
  - revert t. induction s as [|c s IH]; intros [|d t] H; simplify_eq/=.
    + constructor.
    + constructor; [by apply lower_char_eq|by apply IH].
  - induction 1 as [|c d s t Hcd _ IH]; simpl; [done|].
    apply lower_char_eq in Hcd. by rewrite Hcd, IH.
Qed.

Lemma eq_ignore_case_length s t :
  eq_ignore_case s t → String.length s = String.length t.
Proof. induction 1; simpl; by f_equal. Qed.

Lemma eq_ignore_case_refl s : eq_ignore_case s s.
Proof. by apply toLowerCase_eq. Qed.

(** The test used by [findItemByTitle]. *)
Lemma title_test_true s t :
  String.eqb (toLowerCase s) (toLowerCase t) = true ↔ eq_ignore_case s t.
Proof. by rewrite String.eqb_eq, toLowerCase_eq. Qed.

Lemma title_test_false s t :
  String.eqb (toLowerCase s) (toLowerCase t) = false
  ↔ ¬ eq_ignore_case s t.
Proof. by rewrite String.eqb_neq, toLowerCase_eq. Qed.
End StringFacts.

(** ** The store *)

Section StoreFacts.
Implicit Types (s : Store) (this a r : loc) (arr items : list LibraryItem).

Lemma catalogue_items_Some s this items :
  catalogue_items s this = Some items ↔
  ∃ a, heap s !! this = Some (CatalogueObj a)
       ∧ heap s !! a = Some (ArrayObj items).
Proof.
  unfold catalogue_items. split.
  - destruct (heap s !! this) as [[|a]|] eqn:Ht; try done.
    destruct (heap s !! a) as [[arr|]|] eqn:Ha; try done.
    intros [= ->]. by exists a.
  - intros (a & -> & ->). done.
Qed.

(** Updating the catalogue's own array changes its items to the new
    elements. *)
Lemma catalogue_items_write s this a arr items i c :
  heap s !! this = Some (CatalogueObj a) →
  heap s !! a = Some (ArrayObj arr) →
  catalogue_items (mkStore (<[a := ArrayObj items]> (heap s)) i c) this
  = Some items.
Proof.
  intros Ht Ha. apply catalogue_items_Some. exists a. simpl.
  assert (this ≠ a) by (intros ->; congruence).
  by rewrite lookup_insert_ne, lookup_insert_eq.
Qed.

(** Storing an object at a reference that is not in use leaves the
    catalogue alone. *)
Lemma catalogue_items_fresh s this items r o i c :
  catalogue_items s this = Some items → heap s !! r = None →
  catalogue_items (mkStore (<[r := o]> (heap s)) i c) this = Some items.
Proof.
  intros (a & Ht & Ha)%catalogue_items_Some Hr.
  apply catalogue_items_Some. exists a. simpl.
  rewrite !lookup_insert_ne by congruence. done.
Qed.

Lemma fresh_lookup s : heap s !! fresh (dom (heap s)) = None.
Proof. apply not_elem_of_dom, is_fresh. Qed.
End StoreFacts.

(** ** What each method computes on a well-formed catalogue *)

Section MethodFacts.
Import LibraryCatalogue JSString.
Variables (s : Store) (this a : loc) (arr : list LibraryItem).
Hypothesis Hthis : heap s !! this = Some (CatalogueObj a).
Hypothesis Harr : heap s !! a = Some (ArrayObj arr).

Ltac run_method :=
  unfold bind, ret, get_libraryItems, read_array, write_array, alloc,
    console_log;
  cbn [heap instance console]; rewrite ?Hthis;
  cbn [heap instance console]; rewrite ?Harr;
  cbn [heap instance console].

Lemma addItem_run item :
  addItem this item s
  = Ok tt (mkStore (<[a := ArrayObj (arr ++ [item])]> (heap s))
             (instance s)
             (console s ++
                [getItemType item +:+ " " +:+ dquote +:+ getTitle item
                 +:+ dquote +:+ " has been added to the catalogue."])).
Proof. unfold addItem. run_method. done. Qed.

Lemma getItemCount_run : getItemCount this s = Ok (length arr) s.
Proof. unfold getItemCount. run_method. done. Qed.

Lemma findItemByTitle_run title :
  findItemByTitle this title s
  = Ok (JSArray.find
          (λ item, String.eqb (toLowerCase (getTitle item))
                              (toLowerCase title)) arr) s.
Proof. unfold findItemByTitle. run_method. done. Qed.

Lemma findItemsByType_run itemType :
  findItemsByType this itemType s
  = Ok (fresh (dom (heap s)))
       (mkStore (<[fresh (dom (heap s)) :=
                     ArrayObj (JSArray.filter
                                 (λ item, String.eqb (getItemType item)
                                                     itemType) arr)]>
                   (heap s))
                (instance s) (console s)).
Proof. unfold findItemsByType. run_method. done. Qed.

Lemma getAllItems_run :
  getAllItems this s
  = Ok (fresh (dom (heap s)))
       (mkStore (<[fresh (dom (heap s)) := ArrayObj arr]> (heap s))
                (instance s) (console s)).
Proof. unfold getAllItems. run_method. done. Qed.

Lemma getStatistics_run :
  getStatistics this s
  = Ok (foldl (λ stats item,
                 mkStatistics (total stats)
                   (count_type (byType stats) (getItemType item)))
              (mkStatistics (length arr) ∅) arr) s.
Proof. unfold getStatistics. run_method. done. Qed.

Lemma removeItem_run_found id before x after :
  arr = before ++ x :: after → getId x = id →
  Forall (λ y, getId y ≠ id) before →
  removeItem this id s
  = Ok true
      (mkStore (<[a := ArrayObj (before ++ after)]> (heap s))
         (instance s)
         (console s ++
            [getItemType x +:+ " " +:+ dquote +:+ getTitle x
             +:+ dquote +:+ " has been removed from the catalogue."])).
Proof.
  intros Heq Hx Hb. unfold removeItem. run_method.
  unfold JSArray.findIndex. rewrite Heq.
  rewrite findIndex_from_found.
  - assert ((0 + Z.of_nat (length before) >? -1)%Z = true) as ->
      by (apply Z.gtb_lt; lia).
    rewrite Z.add_0_l, splice_one. run_method. done.
  - by apply Z.eqb_eq.
  - eapply Forall_impl; [exact Hb|]. intros y Hy. by apply Z.eqb_neq.
Qed.

Lemma removeItem_run_absent id :
  Forall (λ y, getId y ≠ id) arr → removeItem this id s = Ok false s.
Proof.
  intros Hall. unfold removeItem. run_method.
  unfold JSArray.findIndex. rewrite findIndex_from_absent; [done|].
  eapply Forall_impl; [exact Hall|]. intros y Hy. by apply Z.eqb_neq.
Qed.
End MethodFacts.

(** ** Counting by type *)

Section StatisticsFacts.
Implicit Types (m : gmap string nat) (t : string)
  (arr : list LibraryItem) (st : Statistics).

Lemma or_zero_default (v : option nat) : or_zero v = default 0 v.
Proof. by destruct v as [[|n]|]. Qed.

Lemma count_type_lookup_eq m t :
  count_type m t !! t = Some (default 0 (m !! t) + 1).
Proof. unfold count_type. by rewrite lookup_insert_eq, or_zero_default. Qed.

Lemma count_type_lookup_ne m t t' :
  t ≠ t' → count_type m t !! t' = m !! t'.
Proof. intros. unfold count_type. by rewrite lookup_insert_ne. Qed.

Lemma sum_counts_insert m t n :
  m !! t = None → sum_counts (<[t:=n]> m) = n + sum_counts m.
Proof.
  intros. unfold sum_counts.
  apply (map_fold_insert_L (λ _ k acc, k + acc)); [intros; lia|done].
Qed.

Lemma sum_counts_delete m t n :
  m !! t = Some n → sum_counts m = n + sum_counts (delete t m).
Proof.
  intros. unfold sum_counts.
  apply (map_fold_delete_L (λ _ k acc, k + acc)); [intros; lia|done].
Qed.

Lemma sum_counts_count_type m t :
  sum_counts (count_type m t) = S (sum_counts m).
Proof.
  unfold count_type. rewrite or_zero_default.
  destruct (m !! t) as [n|] eqn:Ht; simpl.
  - rewrite <-insert_delete_eq, sum_counts_insert by apply lookup_delete_eq.
    rewrite (sum_counts_delete m t n) by done. lia.
  - by rewrite sum_counts_insert.
Qed.

Lemma count_of_type_cons t x arr :
  count_of_type t (x :: arr)
  = if decide (getItemType x = t) then S (count_of_type t arr)
    else count_of_type t arr.
Proof.
  unfold count_of_type. rewrite filter_cons. by case_decide.
Qed.

(** The loop of [getStatistics] only touches [byType]. *)
Lemma tally_total st arr :
  foldl (λ stats item,
           mkStatistics (total stats)
             (count_type (byType stats) (getItemType item))) st arr
  = mkStatistics (total st)
      (foldl (λ m item, count_type m (getItemType item)) (byType st) arr).
Proof.
  revert st. induction arr as [|x arr IH]; intros st; simpl.
  - by destruct st.
  - by rewrite IH.
Qed.

Lemma tally_lookup m arr t :
  foldl (λ m item, count_type m (getItemType item)) m arr !! t
  = match count_of_type t arr with
    | 0 => m !! t
    | S k => Some (default 0 (m !! t) + S k)
    end.
Proof.
  revert m. induction arr as [|x arr IH]; intros m; simpl; [done|].
  rewrite IH, count_of_type_cons. case_decide as Hx.
  - subst t. rewrite count_type_lookup_eq. simpl.
    destruct (count_of_type _ arr); f_equal; lia.
  - by rewrite count_type_lookup_ne.
Qed.

Lemma tally_sum m arr :
  sum_counts (foldl (λ m item, count_type m (getItemType item)) m arr)
  = sum_counts m + length arr.
Proof.
  revert m. induction arr as [|x arr IH]; intros m; simpl; [lia|].
  rewrite IH, sum_counts_count_type. lia.
Qed.

Lemma count_of_type_pos t arr :
  count_of_type t arr ≠ 0 ↔ ∃ x, x ∈ arr ∧ getItemType x = t.
Proof.
  unfold count_of_type. split.
  - destruct (base.filter _ arr) as [|x l] eqn:Hf; [done|]. intros _.
    exists x.
    assert (x ∈ base.filter (λ item, getItemType item = t) arr) as Hx
      by (rewrite Hf; left).
    apply list_elem_of_filter in Hx as [??]. done.
  - intros (x & Hin & Hx) Hlen. apply length_zero_iff_nil in Hlen.
    assert (x ∈ base.filter (λ item, getItemType item = t) arr) as Hx'
      by by apply list_elem_of_filter.
    rewrite Hlen in Hx'. by apply not_elem_of_nil in Hx'.
Qed.
End StatisticsFacts.

(** ** The catalogue methods *)

Section CatalogueFacts.
Import LibraryCatalogue.
Implicit Types (s : Store) (this : loc) (items : list LibraryItem).

Lemma same_catalogues_refl s : same_catalogues s s.
Proof. by split. Qed.

Lemma same_catalogues_trans s1 s2 s3 :
  same_catalogues s1 s2 → same_catalogues s2 s3 → same_catalogues s1 s3.
Proof.
  intros [Hi1 Hc1] [Hi2 Hc2]. split; [congruence|].
  intros r a. by rewrite Hc2, Hc1.
Qed.

(** Storing an array where no catalogue lives keeps the catalogue
    objects as they are. *)
Lemma same_catalogues_array s r arr i c :
  i = instance s → (∀ a, heap s !! r ≠ Some (CatalogueObj a)) →
  same_catalogues s (mkStore (<[r := ArrayObj arr]> (heap s)) i c).
Proof.
  intros -> Hr. split; [done|]. intros r' a. simpl.
  destruct (decide (r = r')) as [->|].
  - rewrite lookup_insert_eq. split; [done|]. intros H. by apply Hr in H.
  - by rewrite lookup_insert_ne.
Qed.

Lemma addItem_ok s this items item :
  catalogue_items s this = Some items →
  ∃ s', addItem this item s = Ok tt s'
        ∧ catalogue_items s' this = Some (items ++ [item])
        ∧ same_catalogues s s'.
Proof.
  intros (a & Ht & Ha)%catalogue_items_Some.
  eexists. split; [by apply addItem_run|]. split.
  - by eapply catalogue_items_write.
  - apply same_catalogues_array; [done|]. intros a'. congruence.
Qed.

Lemma removeItem_ok s this items id :
  catalogue_items s this = Some items →
  (∃ before x after s',
      items = before ++ x :: after ∧ getId x = id
      ∧ Forall (λ y, getId y ≠ id) before
      ∧ removeItem this id s = Ok true s'
      ∧ catalogue_items s' this = Some (before ++ after)
      ∧ same_catalogues s s')
  ∨ (Forall (λ y, getId y ≠ id) items
     ∧ removeItem this id s = Ok false s).
Proof.
  intros (a & Ht & Ha)%catalogue_items_Some.
  destruct (first_split (λ item, (getId item =? id)%Z) items)
    as [(before & x & after & Heq & Hx & Hb)|Hall].
  - left. apply Z.eqb_eq in Hx.
    assert (Forall (λ y, getId y ≠ id) before) as Hb'.
    { eapply Forall_impl; [exact Hb|]. intros y Hy. by apply Z.eqb_neq. }
    exists before, x, after. eexists.
    split; [done|]. split; [done|]. split; [done|].
    split; [by eapply removeItem_run_found|]. split.
    + by eapply catalogue_items_write.
    + apply same_catalogues_array; [done|]. intros a'. congruence.
  - right. assert (Forall (λ y, getId y ≠ id) items) as Hall'.
    { eapply Forall_impl; [exact Hall|]. intros y Hy. by apply Z.eqb_neq. }
    split; [done|]. by eapply removeItem_run_absent.
Qed.
End CatalogueFacts.

(** ** The singleton *)

Section SingletonFacts.
Import LibraryCatalogue.
Implicit Types (s : Store) (c : loc) (items : list LibraryItem).

Lemma invoke_ok (m : Method) s c items :
  catalogue_items s c = Some items →
  ∃ s', invoke m c s = Ok tt s'
        ∧ is_Some (catalogue_items s' c)
        ∧ same_catalogues s s'.
Proof.
  intros Hitems.
  pose proof Hitems as (a & Ht & Ha)%catalogue_items_Some.
  destruct m as [item|id| |title|itemType| |]; unfold invoke, bind, ret.
  - destruct (addItem_ok s c items item Hitems) as (s' & -> & H' & Hsc).
    exists s'. by split; [|split].
  - destruct (removeItem_ok s c items id Hitems)
      as [(before & x & after & s' & _ & _ & _ & -> & H' & Hsc)|[_ ->]].
    + exists s'. by split; [|split].
    + exists s. split; [done|]. split; [by eexists|].
      apply same_catalogues_refl.
  - rewrite (getItemCount_run s c a items) by done.
    exists s. split; [done|]. split; [by eexists|].
    apply same_catalogues_refl.
  - rewrite (findItemByTitle_run s c a items) by done.
    exists s. split; [done|]. split; [by eexists|].
    apply same_catalogues_refl.
  - rewrite (findItemsByType_run s c a items) by done.
    eexists. split; [done|]. pose proof (fresh_lookup s) as Hf. split.
    + exists items. by apply catalogue_items_fresh.
    + apply same_catalogues_array; [done|]. intros a'. congruence.
  - rewrite (getAllItems_run s c a items) by done.
    eexists. split; [done|]. pose proof (fresh_lookup s) as Hf. split.
    + exists items. by apply catalogue_items_fresh.
    + apply same_catalogues_array; [done|]. intros a'. congruence.
  - rewrite (getStatistics_run s c a items) by done.
    exists s. split; [done|]. split; [by eexists|].
    apply same_catalogues_refl.
Qed.

Lemma only_catalogue_same s s' c :
  only_catalogue s c → same_catalogues s s' →
  is_Some (catalogue_items s' c) → only_catalogue s' c.
Proof.
  intros (Hi & _ & Hall) [Hi' Hc] Hsome. split; [congruence|].
  split; [done|]. intros r a Hr. eapply Hall. by apply Hc.
Qed.

(** The first call constructs the catalogue, empty. *)
Lemma getInstance_first s :
  no_catalogue s →
  ∃ c s', getInstance s = Ok c s'
          ∧ only_catalogue s' c
          ∧ catalogue_items s' c = Some [].
Proof.
  intros [Hnone Hno]. unfold getInstance. rewrite Hnone.
  unfold new, bind, alloc. cbn [heap instance console].
  set (a := fresh (dom (heap s))).
  set (h1 := <[a := ArrayObj []]> (heap s)).
  set (c := fresh (dom h1)).
  assert (h1 !! c = None) as Hc by apply not_elem_of_dom, is_fresh.
  assert (c ≠ a) as Hca.
  { intros Heq. rewrite Heq in Hc. unfold h1 in Hc.
    by rewrite lookup_insert_eq in Hc. }
  assert (catalogue_items
            (mkStore (<[c := CatalogueObj a]> h1) (Some c) (console s)) c
          = Some []) as Hitems.
  { apply catalogue_items_Some. exists a. simpl.
    rewrite lookup_insert_eq, lookup_insert_ne by done.
    unfold h1. by rewrite lookup_insert_eq. }
  eexists _, _. split; [done|]. split; [|done].
  split; [done|]. split; [by eexists|].
  intros r a'. simpl. destruct (decide (c = r)) as [->|]; [done|].
  rewrite lookup_insert_ne by done. unfold h1.
  destruct (decide (a = r)) as [->|].
  - by rewrite lookup_insert_eq.
  - rewrite lookup_insert_ne by done. intros H. by apply Hno in H.
Qed.

(** Every later call returns the same reference and changes nothing. *)
Lemma getInstance_again s c :
  instance s = Some c → getInstance s = Ok c s.
Proof. intros H. unfold getInstance. by rewrite H. Qed.

(** Once the catalogue exists, a client only ever holds that one. *)
Lemma run_calls_only_catalogue (calls : list Call) :
  ∀ refs s c,
    only_catalogue s c → Forall (λ r, r = c) refs →
    ∃ refs' s',
      run_calls calls refs s = Ok refs' s'
      ∧ only_catalogue s' c
      ∧ Forall (λ r, r = c) refs'.
Proof.
  induction calls as [|[|k m] calls IH]; intros refs s c Hs Hrefs; simpl.
  - by exists refs, s.
  - unfold bind. rewrite (getInstance_again s c) by apply Hs.
    apply IH; [done|]. apply Forall_app. split; [done|]. by constructor.
  - destruct (refs !! k) as [r|] eqn:Hk; [|by apply IH].
    assert (r = c) as ->.
    { rewrite Forall_forall in Hrefs. eapply Hrefs, list_elem_of_lookup_2.
      exact Hk. }
    destruct Hs as (Hi & [items Hitems] & Hall).
    destruct (invoke_ok m s c items Hitems) as (s' & Hrun & Hsome & Hsc).
    unfold bind. rewrite Hrun. apply IH; [|done].
    eapply only_catalogue_same; [|done..]. split; [done|].
    split; [by eexists|done].
Qed.

(** Before the first call of [getInstance] a client holds no
    reference. *)
Lemma run_calls_from_none (calls : list Call) s :
  no_catalogue s →
  ∃ refs s',
    run_calls calls [] s = Ok refs s'
    ∧ ((refs = [] ∧ s' = s)
       ∨ ∃ c, only_catalogue s' c ∧ Forall (λ r, r = c) refs).
Proof.
  intros Hs. induction calls as [|[|k m] calls IH]; simpl.
  - exists [], s. split; [done|]. by left.
  - destruct (getInstance_first s Hs) as (c & s1 & Hrun & Hs1 & _).
    unfold bind. rewrite Hrun.
    destruct (run_calls_only_catalogue calls [c] s1 c Hs1)
      as (refs & s' & Hcalls & Hs' & Hrefs); [by repeat constructor|].
    exists refs, s'. split; [done|]. right. by exists c.
  - done.
Qed.
End SingletonFacts.

(** ** The sample run, evaluated *)

Section Scenario.
Import LibraryCatalogue Sample.

Example sample_catalogue :
  getInstance initial_store = Ok catalogue empty_store.
Proof. vm_compute. reflexivity. Qed.

Example sample_count : getItemCount catalogue store = Ok 3 store.
Proof. vm_compute. reflexivity. Qed.

Example sample_books :
  match findItemsByType catalogue "Book" store with
  | Ok r s' => array_elems s' r
  | Throw _ => None
  end = Some [ItemBook gatsby; ItemBook nineteen84].
Proof. vm_compute. reflexivity. Qed.

(** The comparison of discriminators distinguishes letter case. *)
Example sample_books_lower_case :
  match findItemsByType catalogue "book" store with
  | Ok r s' => array_elems s' r
  | Throw _ => None
  end = Some [].
Proof. vm_compute. reflexivity. Qed.

Example sample_statistics :
  match getStatistics catalogue store with
  | Ok stats _ => Some (total stats, map_to_list (byType stats))
  | Throw _ => None
  end = Some (3, [("AudioBook", 1); ("Book", 2)]).
Proof. vm_compute. reflexivity. Qed.

Example sample_find_ignores_case :
  findItemByTitle catalogue "the great gatsby" store
  = Ok (Some (ItemBook gatsby)) store
  ∧ findItemByTitle catalogue "THE GREAT GATSBY" store
    = Ok (Some (ItemBook gatsby)) store.
Proof. split; vm_compute; reflexivity. Qed.

(** A part of a title is not a match. *)
Example sample_find_part_of_title :
  findItemByTitle catalogue "Gatsby" store = Ok None store.
Proof. vm_compute. reflexivity. Qed.

Example sample_remove :
  match removeItem catalogue 2 store with
  | Ok b s' =>
      Some (b, catalogue_items s' catalogue,
            match findItemByTitle catalogue "1984" s' with
            | Ok found _ => found
            | Throw _ => None
            end)
  | Throw _ => None
  end = Some (true, Some [ItemBook gatsby; ItemAudioBook dune], None).
Proof. vm_compute. reflexivity. Qed.

Example sample_remove_unknown_id :
  removeItem catalogue 42 store = Ok false store.
Proof. vm_compute. reflexivity. Qed.

Example sample_console :
  console store
  = ["Book " +:+ JSString.dquote +:+ "The Great Gatsby" +:+ JSString.dquote
       +:+ " has been added to the catalogue.";
     "Book " +:+ JSString.dquote +:+ "1984" +:+ JSString.dquote
       +:+ " has been added to the catalogue.";
     "AudioBook " +:+ JSString.dquote +:+ "Dune" +:+ JSString.dquote
       +:+ " has been added to the catalogue."].
Proof. vm_compute. reflexivity. Qed.
End Scenario.

(* ================================================================== *)
(** * The catalogue's contract *)

(** C1. [removeItem(id)] on any catalogue, for any integer [id]: either
    the items split as [before ++ x :: after] where [x] is the first item
    whose [getId()] is [id], the call returns [true] and the catalogue
    then holds [before ++ after] (one entry fewer, the others in their
    order); or no item has that id, the call returns [false] and the store
    is the one it started from.  In both cases it returns: it never
    throws. *)
Theorem removeItem_first_match
    (s : Store) (this : loc) (items : list LibraryItem) (id : Z) :
  catalogue_items s this = Some items →
  (∃ before x after s',
      items = before ++ x :: after
      ∧ getId x = id
      ∧ Forall (λ y, getId y ≠ id) before
      ∧ LibraryCatalogue.removeItem this id s = Ok true s'
      ∧ catalogue_items s' this = Some (before ++ after)
      ∧ S (length (before ++ after)) = length items)
  ∨ ((∀ y, y ∈ items → getId y ≠ id)
     ∧ LibraryCatalogue.removeItem this id s = Ok false s
     ∧ catalogue_items s this = Some items).
Proof.
  intros Hitems.
  destruct (removeItem_ok s this items id Hitems)
    as [(before & x & after & s' & Heq & Hx & Hb & Hrun & Hitems' & _)
       |[Hall Hrun]].
  - left. exists before, x, after, s'. repeat split; try done.
    rewrite Heq, !length_app. simpl. lia.
  - right. split; [|done]. by apply Forall_forall.
Qed.

Lemma removeItem_first_match_witness :
  catalogue_items Sample.store Sample.catalogue = Some Sample.items
  ∧ ((∃ before x after s',
         Sample.items = before ++ x :: after
         ∧ getId x = 2%Z
         ∧ Forall (λ y, getId y ≠ 2%Z) before
         ∧ LibraryCatalogue.removeItem Sample.catalogue 2 Sample.store
           = Ok true s'
         ∧ catalogue_items s' Sample.catalogue = Some (before ++ after)
         ∧ S (length (before ++ after)) = length Sample.items)
     ∨ ((∀ y, y ∈ Sample.items → getId y ≠ 2%Z)
        ∧ LibraryCatalogue.removeItem Sample.catalogue 2 Sample.store
          = Ok false Sample.store
        ∧ catalogue_items Sample.store Sample.catalogue
          = Some Sample.items)).
Proof.
  split; [vm_compute; reflexivity|].
  apply (removeItem_first_match Sample.store Sample.catalogue Sample.items 2).
  vm_compute; reflexivity.
Defined.

(** C4. [addItem(item)] on any catalogue, for any item (whether or not
    its id or title already occurs): the call returns normally and the
    catalogue then holds the old items followed by [item]; the length has
    grown by exactly one, every old item is at the index it had, and
    [item] is at the last index. *)
Theorem addItem_appends
    (s : Store) (this : loc) (items : list LibraryItem) (item : LibraryItem) :
  catalogue_items s this = Some items →
  ∃ s', LibraryCatalogue.addItem this item s = Ok tt s'
        ∧ catalogue_items s' this = Some (items ++ [item])
        ∧ length (items ++ [item]) = S (length items)
        ∧ (∀ i x, items !! i = Some x → (items ++ [item]) !! i = Some x)
        ∧ (items ++ [item]) !! length items = Some item.
Proof.
  intros Hitems.
  destruct (addItem_ok s this items item Hitems) as (s' & Hrun & Hitems' & _).
  exists s'. repeat split; try done.
  - rewrite length_app. simpl. lia.
  - intros i x Hi. by apply lookup_app_l_Some.
  - by rewrite lookup_app_r, Nat.sub_diag.
Qed.

(** A second copy of an item already in the catalogue is appended like
    any other item. *)
Lemma addItem_appends_witness :
  catalogue_items Sample.store Sample.catalogue = Some Sample.items
  ∧ ∃ s', LibraryCatalogue.addItem Sample.catalogue Sample.gatsby
            Sample.store = Ok tt s'
          ∧ catalogue_items s' Sample.catalogue
            = Some (Sample.items ++ [ItemBook Sample.gatsby])
          ∧ length (Sample.items ++ [ItemBook Sample.gatsby])
            = S (length Sample.items)
          ∧ (∀ i x, Sample.items !! i = Some x →
                    (Sample.items ++ [ItemBook Sample.gatsby]) !! i = Some x)
          ∧ (Sample.items ++ [ItemBook Sample.gatsby])
              !! length Sample.items
            = Some (ItemBook Sample.gatsby).
Proof.
  split; [vm_compute; reflexivity|].
  apply (addItem_appends Sample.store Sample.catalogue Sample.items
           Sample.gatsby).
  vm_compute; reflexivity.
Defined.

(** Any interleaving of [addItem] and [removeItem] runs to the end on a
    well-formed catalogue, leaves it well formed, and the lengths balance:
    what is there afterwards plus what was removed is what was there plus
    what was added. *)
Lemma run_ops_balance (this : loc) (ops : list Op) :
  ∀ s items,
    catalogue_items s this = Some items →
    ∃ bs s' items',
      run_ops this ops s = Ok bs s'
      ∧ catalogue_items s' this = Some items'
      ∧ same_catalogues s s'
      ∧ length items' + count_true bs = length items + count_adds ops.
Proof.
  induction ops as [|[item|id] ops IH]; intros s items Hitems; simpl.
  - exists [], s, items.
    split; [done|]. split; [done|]. split; [apply same_catalogues_refl|done].
  - destruct (addItem_ok s this items item Hitems) as (s1 & Hrun & H1 & Hsc).
    destruct (IH s1 _ H1) as (bs & s' & items' & Hops & H' & Hsc' & Hlen).
    exists bs, s', items'. unfold bind. rewrite Hrun, Hops.
    split; [done|]. split; [done|].
    split; [by eapply same_catalogues_trans|].
    rewrite length_app in Hlen. simpl in Hlen. lia.
  - destruct (removeItem_ok s this items id Hitems)
      as [(before & x & after & s1 & Heq & _ & _ & Hrun & H1 & Hsc)
         |[_ Hrun]].
    + destruct (IH s1 _ H1) as (bs & s' & items' & Hops & H' & Hsc' & Hlen).
      exists (true :: bs), s', items'. unfold bind, ret.
      rewrite Hrun, Hops.
      split; [done|]. split; [done|].
      split; [by eapply same_catalogues_trans|].
      rewrite Heq, !length_app in *. simpl in *. lia.
    + destruct (IH s _ Hitems) as (bs & s' & items' & Hops & H' & Hsc' & Hlen).
      exists (false :: bs), s', items'. unfold bind, ret.
      rewrite Hrun, Hops. by split; [|split; [|split]].
Qed.

(** C5. From an empty catalogue, any interleaving of [addItem] and
    [removeItem] calls runs to the end, and afterwards [getItemCount()]
    is the number of [addItem] calls minus the number of [removeItem]
    calls that returned [true]. *)
Theorem getItemCount_adds_minus_removes
    (s : Store) (this : loc) (ops : list Op) :
  catalogue_items s this = Some [] →
  ∃ bs s' n,
    run_ops this ops s = Ok bs s'
    ∧ LibraryCatalogue.getItemCount this s' = Ok n s'
    ∧ count_true bs ≤ count_adds ops
    ∧ n = count_adds ops - count_true bs.
Proof.
  intros Hitems.
  destruct (run_ops_balance this ops s [] Hitems)
    as (bs & s' & items' & Hops & H' & _ & Hlen).
  apply catalogue_items_Some in H' as (a & Ht & Ha).
  exists bs, s', (length items'). split; [done|].
  split; [by eapply getItemCount_run|]. simpl in Hlen. lia.
Qed.

Lemma getItemCount_adds_minus_removes_witness :
  catalogue_items Sample.empty_store Sample.catalogue = Some []
  ∧ ∃ bs s' n,
      run_ops Sample.catalogue
        [OpAdd Sample.gatsby; OpRemove 7; OpAdd Sample.dune; OpRemove 1]
        Sample.empty_store = Ok bs s'
      ∧ LibraryCatalogue.getItemCount Sample.catalogue s' = Ok n s'
      ∧ count_true bs
        ≤ count_adds
            [OpAdd Sample.gatsby; OpRemove 7; OpAdd Sample.dune; OpRemove 1]
      ∧ n = count_adds
              [OpAdd Sample.gatsby; OpRemove 7; OpAdd Sample.dune; OpRemove 1]
            - count_true bs.
Proof.
  split; [vm_compute; reflexivity|].
  apply (getItemCount_adds_minus_removes Sample.empty_store Sample.catalogue).
  vm_compute; reflexivity.
Defined.

(** C2. After any interleaving of [addItem] and [removeItem] calls on any
    catalogue (the empty interleaving gives the catalogue itself),
    [getStatistics()] returns, without changing the store, a record whose
    [total] is [getItemCount()], whose [byType] maps a discriminator to
    the number of current items with that discriminator when that number
    is not zero and has no entry for it otherwise, and whose counts add
    up to [total]. *)
Theorem getStatistics_counts
    (s : Store) (this : loc) (items : list LibraryItem) (ops : list Op) :
  catalogue_items s this = Some items →
  ∃ bs s' items' stats,
    run_ops this ops s = Ok bs s'
    ∧ catalogue_items s' this = Some items'
    ∧ LibraryCatalogue.getStatistics this s' = Ok stats s'
    ∧ LibraryCatalogue.getItemCount this s' = Ok (total stats) s'
    ∧ (∀ type,
         byType stats !! type
         = if decide (count_of_type type items' = 0) then None
           else Some (count_of_type type items'))
    ∧ (∀ type, is_Some (byType stats !! type)
               ↔ ∃ item, item ∈ items' ∧ getItemType item = type)
    ∧ sum_counts (byType stats) = total stats.
Proof.
  intros Hitems.
  destruct (run_ops_balance this ops s items Hitems)
    as (bs & s' & items' & Hops & H' & _ & _).
  pose proof H' as (a & Ht & Ha)%catalogue_items_Some.
  exists bs, s', items'. eexists.
  split; [done|]. split; [done|].
  split; [by eapply getStatistics_run|].
  rewrite tally_total. simpl.
  assert (∀ type,
    foldl (λ m item, count_type m (getItemType item)) ∅ items' !! type
    = if decide (count_of_type type items' = 0) then None
      else Some (count_of_type type items')) as Hlookup.
  { intros type. rewrite tally_lookup, lookup_empty. simpl.
    destruct (count_of_type type items'); by case_decide. }
  split; [by eapply getItemCount_run|]. split; [done|]. split.
  - intros type. rewrite Hlookup, <-count_of_type_pos.
    case_decide; by split.
  - rewrite tally_sum. unfold sum_counts. by rewrite map_fold_empty.
Qed.

Lemma getStatistics_counts_witness :
  catalogue_items Sample.store Sample.catalogue = Some Sample.items
  ∧ ∃ bs s' items' stats,
      run_ops Sample.catalogue [OpRemove 2] Sample.store = Ok bs s'
      ∧ catalogue_items s' Sample.catalogue = Some items'
      ∧ LibraryCatalogue.getStatistics Sample.catalogue s' = Ok stats s'
      ∧ LibraryCatalogue.getItemCount Sample.catalogue s'
        = Ok (total stats) s'
      ∧ (∀ type,
           byType stats !! type
           = if decide (count_of_type type items' = 0) then None
             else Some (count_of_type type items'))
      ∧ (∀ type, is_Some (byType stats !! type)
                 ↔ ∃ item, item ∈ items' ∧ getItemType item = type)
      ∧ sum_counts (byType stats) = total stats.
Proof.
  split; [vm_compute; reflexivity|].
  apply (getStatistics_counts Sample.store Sample.catalogue Sample.items).
  vm_compute; reflexivity.
Defined.

(** C3. [findItemByTitle(title)], on a catalogue whose titles are ASCII
    text and for an ASCII [title], returns without changing the store.
    When it returns an item, the items split as [before ++ x :: after]
    where [x]'s title equals [title] up to letter case over its whole
    length (so the two have the same length) and no item of [before] has
    such a title; when it returns [undefined], no item of the catalogue
    has such a title.  The restriction to ASCII is where the embedding
    of [toLowerCase] is what the code computes. *)
Theorem findItemByTitle_first_ignoring_case
    (s : Store) (this : loc) (items : list LibraryItem) (title : string) :
  catalogue_items s this = Some items →
  JSString.ascii_only title = true →
  Forall (λ y, JSString.ascii_only (getTitle y) = true) items →
  ∃ found,
    LibraryCatalogue.findItemByTitle this title s = Ok found s
    ∧ match found with
      | Some x =>
          ∃ before after,
            items = before ++ x :: after
            ∧ JSString.eq_ignore_case (getTitle x) title
            ∧ String.length (getTitle x) = String.length title
            ∧ Forall (λ y, ¬ JSString.eq_ignore_case (getTitle y) title)
                before
      | None =>
          ∀ y, y ∈ items → ¬ JSString.eq_ignore_case (getTitle y) title
      end.
Proof.
  intros (a & Ht & Ha)%catalogue_items_Some _ _.
  eexists. split; [by eapply findItemByTitle_run|].
  destruct (JSArray.find _ items) as [x|] eqn:Hfind.
  - apply find_Some in Hfind as (before & after & Heq & Hx & Hb).
    apply title_test_true in Hx.
    exists before, after. split; [done|]. split; [done|].
    split; [by apply eq_ignore_case_length|].
    eapply Forall_impl; [exact Hb|]. intros y Hy. by apply title_test_false.
  - apply find_None in Hfind. rewrite Forall_forall in Hfind.
    intros y Hy. by apply title_test_false, Hfind.
Qed.

Lemma findItemByTitle_first_ignoring_case_witness :
  catalogue_items Sample.store Sample.catalogue = Some Sample.items
  ∧ JSString.ascii_only "the great gatsby" = true
  ∧ Forall (λ y, JSString.ascii_only (getTitle y) = true) Sample.items
  ∧ ∃ found,
      LibraryCatalogue.findItemByTitle Sample.catalogue "the great gatsby"
        Sample.store = Ok found Sample.store
      ∧ match found with
        | Some x =>
            ∃ before after,
              Sample.items = before ++ x :: after
              ∧ JSString.eq_ignore_case (getTitle x) "the great gatsby"
              ∧ String.length (getTitle x)
                = String.length "the great gatsby"
              ∧ Forall
                  (λ y, ¬ JSString.eq_ignore_case (getTitle y)
                            "the great gatsby") before
        | None =>
            ∀ y, y ∈ Sample.items →
                 ¬ JSString.eq_ignore_case (getTitle y) "the great gatsby"
        end.
Proof.
  assert (Forall (λ y, JSString.ascii_only (getTitle y) = true) Sample.items)
    as Hascii by (repeat constructor).
  split; [vm_compute; reflexivity|]. split; [reflexivity|].
  split; [exact Hascii|].
  apply (findItemByTitle_first_ignoring_case Sample.store Sample.catalogue
           Sample.items "the great gatsby");
    [vm_compute; reflexivity|reflexivity|exact Hascii].
Defined.

(** C6. [findItemsByType(itemType)] on any catalogue returns a new array
    and leaves the catalogue's items as they were.  The array holds the
    items whose [getItemType()] is the string [itemType], in catalogue
    order: it is the catalogue's sequence with the other items left out,
    every sequence of such items taken in order from the catalogue is
    within it, and it is empty when no item has that type. *)
Theorem findItemsByType_exact
    (s : Store) (this : loc) (items : list LibraryItem) (itemType : string) :
  catalogue_items s this = Some items →
  ∃ r s' result,
    LibraryCatalogue.findItemsByType this itemType s = Ok r s'
    ∧ array_elems s' r = Some result
    ∧ catalogue_items s' this = Some items
    ∧ result = base.filter (λ item, getItemType item = itemType) items
    ∧ result `sublist_of` items
    ∧ Forall (λ item, getItemType item = itemType) result
    ∧ (∀ l, l `sublist_of` items →
            Forall (λ item, getItemType item = itemType) l →
            l `sublist_of` result)
    ∧ ((∀ item, item ∈ items → getItemType item ≠ itemType) → result = []).
Proof.
  intros Hitems.
  pose proof Hitems as (a & Ht & Ha)%catalogue_items_Some.
  set (p := λ item, String.eqb (getItemType item) itemType).
  assert (∀ x, p x = true ↔ getItemType x = itemType) as Hp
    by (intros x; apply String.eqb_eq).
  assert (∀ x, p x = false ↔ getItemType x ≠ itemType) as Hp'
    by (intros x; apply String.eqb_neq).
  exists (fresh (dom (heap s))). eexists. exists (JSArray.filter p items).
  split; [by eapply findItemsByType_run|].
  split. { unfold array_elems. simpl. by rewrite lookup_insert_eq. }
  split. { apply catalogue_items_fresh; [done|apply fresh_lookup]. }
  split. { by apply filter_stdpp. }
  split. { apply filter_sublist. }
  split. { eapply Forall_impl; [apply filter_Forall|]. intros x. apply Hp. }
  split.
  - intros l Hsub Hl. apply filter_greatest; [done|].
    eapply Forall_impl; [exact Hl|]. intros x. apply Hp.
  - intros Hnone. apply filter_none, Forall_forall.
    intros x Hx. by apply Hp', Hnone.
Qed.

Lemma findItemsByType_exact_witness :
  catalogue_items Sample.store Sample.catalogue = Some Sample.items
  ∧ ∃ r s' result,
      LibraryCatalogue.findItemsByType Sample.catalogue "Book" Sample.store
      = Ok r s'
      ∧ array_elems s' r = Some result
      ∧ catalogue_items s' Sample.catalogue = Some Sample.items
      ∧ result = base.filter (λ item, getItemType item = "Book") Sample.items
      ∧ result `sublist_of` Sample.items
      ∧ Forall (λ item, getItemType item = "Book") result
      ∧ (∀ l, l `sublist_of` Sample.items →
              Forall (λ item, getItemType item = "Book") l →
              l `sublist_of` result)
      ∧ ((∀ item, item ∈ Sample.items → getItemType item ≠ "Book") →
         result = []).
Proof.
  split; [vm_compute; reflexivity|].
  apply (findItemsByType_exact Sample.store Sample.catalogue Sample.items).
  vm_compute; reflexivity.
Defined.

(** C8. [getAllItems()] on any catalogue returns a new array holding the
    catalogue's items.  Whatever elements a caller then puts into that
    array, the catalogue's items stay the same: [getItemCount()] returns
    the same number and a later [getAllItems()] returns an array with the
    same items as before. *)
Theorem getAllItems_defensive_copy
    (s : Store) (this : loc) (items : list LibraryItem) :
  catalogue_items s this = Some items →
  ∃ r s',
    LibraryCatalogue.getAllItems this s = Ok r s'
    ∧ array_elems s' r = Some items
    ∧ ∀ mutated, ∃ s'',
        write_array r mutated s' = Ok tt s''
        ∧ array_elems s'' r = Some mutated
        ∧ catalogue_items s'' this = Some items
        ∧ LibraryCatalogue.getItemCount this s'' = Ok (length items) s''
        ∧ ∃ r2 s3,
            LibraryCatalogue.getAllItems this s'' = Ok r2 s3
            ∧ r2 ≠ r
            ∧ array_elems s3 r2 = Some items.
Proof.
  intros Hitems.
  pose proof Hitems as (a & Ht & Ha)%catalogue_items_Some.
  pose proof (fresh_lookup s) as Hfresh.
  set (r := fresh (dom (heap s))) in *.
  set (s' := mkStore (<[r := ArrayObj items]> (heap s))
                     (instance s) (console s)).
  assert (catalogue_items s' this = Some items) as Hitems'
    by by apply catalogue_items_fresh.
  exists r, s'. split; [by eapply getAllItems_run|].
  split. { unfold array_elems. simpl. by rewrite lookup_insert_eq. }
  intros mutated.
  set (s'' := mkStore (<[r := ArrayObj mutated]> (heap s'))
                      (instance s') (console s')).
  assert (this ≠ r) by congruence. assert (a ≠ r) by congruence.
  assert (heap s'' !! this = Some (CatalogueObj a)) as Ht''.
  { simpl. by rewrite !lookup_insert_ne. }
  assert (heap s'' !! a = Some (ArrayObj items)) as Ha''.
  { simpl. by rewrite !lookup_insert_ne. }
  exists s''. split.
  { unfold write_array. simpl. by rewrite lookup_insert_eq. }
  split. { unfold array_elems. simpl. by rewrite lookup_insert_eq. }
  split. { apply catalogue_items_Some. by exists a. }
  split; [by eapply getItemCount_run|].
  eexists _, _. split; [by eapply getAllItems_run|]. split.
  - intros Heq. pose proof (fresh_lookup s'') as Hf. rewrite Heq in Hf.
    simpl in Hf. by rewrite lookup_insert_eq in Hf.
  - unfold array_elems. simpl. by rewrite lookup_insert_eq.
Qed.

Lemma getAllItems_defensive_copy_witness :
  catalogue_items Sample.store Sample.catalogue = Some Sample.items
  ∧ ∃ r s',
      LibraryCatalogue.getAllItems Sample.catalogue Sample.store = Ok r s'
      ∧ array_elems s' r = Some Sample.items
      ∧ ∀ mutated, ∃ s'',
          write_array r mutated s' = Ok tt s''
          ∧ array_elems s'' r = Some mutated
          ∧ catalogue_items s'' Sample.catalogue = Some Sample.items
          ∧ LibraryCatalogue.getItemCount Sample.catalogue s''
            = Ok (length Sample.items) s''
          ∧ ∃ r2 s3,
              LibraryCatalogue.getAllItems Sample.catalogue s'' = Ok r2 s3
              ∧ r2 ≠ r
              ∧ array_elems s3 r2 = Some Sample.items.
Proof.
  split; [vm_compute; reflexivity|].
  apply (getAllItems_defensive_copy Sample.store Sample.catalogue
           Sample.items).
  vm_compute; reflexivity.
Defined.

(** C7. In a new process the first [getInstance()] constructs the
    catalogue, empty, where there was none.  After any client run from
    the start of the process (calls of [getInstance] and method calls
    through the references obtained so far), any two references the
    client holds are the same reference and it is the only catalogue
    object in the store; one more [getInstance()] returns it again and
    constructs nothing; and an item added through one reference is seen
    through the other. *)
Theorem getInstance_single_instance (calls : list Call) :
  (no_catalogue initial_store
   ∧ ∃ c s1, LibraryCatalogue.getInstance initial_store = Ok c s1
             ∧ catalogue_items s1 c = Some [])
  ∧ ∃ refs s,
      run_calls calls [] initial_store = Ok refs s
      ∧ ∀ c1 c2, c1 ∈ refs → c2 ∈ refs →
          c1 = c2
          ∧ (∀ r a, heap s !! r = Some (CatalogueObj a) → r = c1)
          ∧ LibraryCatalogue.getInstance s = Ok c1 s
          ∧ ∀ item, ∃ items s',
              catalogue_items s c2 = Some items
              ∧ LibraryCatalogue.addItem c1 item s = Ok tt s'
              ∧ catalogue_items s' c2 = Some (items ++ [item])
              ∧ LibraryCatalogue.getItemCount c2 s'
                = Ok (S (length items)) s'.
Proof.
  assert (no_catalogue initial_store) as Hinit.
  { split; [done|]. intros r a. simpl. by rewrite lookup_empty. }
  split.
  { split; [done|].
    destruct (getInstance_first initial_store Hinit) as (c & s1 & ? & _ & ?).
    by exists c, s1. }
  destruct (run_calls_from_none calls initial_store Hinit)
    as (refs & s & Hrun & [[Hnil _]|(c & Hs & Hrefs)]);
    exists refs, s; (split; [done|]); intros c1 c2 H1 H2.
  { rewrite Hnil in H1. by apply not_elem_of_nil in H1. }
  rewrite Forall_forall in Hrefs.
  apply Hrefs in H1 as ->. apply Hrefs in H2 as ->.
  destruct Hs as (Hi & [items Hitems] & Hall).
  split; [done|]. split; [done|].
  split; [by apply getInstance_again|].
  intros item.
  destruct (addItem_ok s c items item Hitems) as (s' & Hadd & Hitems' & _).
  exists items, s'. split; [done|]. split; [done|]. split; [done|].
  apply catalogue_items_Some in Hitems' as (a & Ht & Ha).
  rewrite (getItemCount_run s' c a (items ++ [item])) by done.
  rewrite length_app. simpl. by rewrite Nat.add_1_r.
Qed.

(** C9. [getItemType()] depends on the item's class only: it is ["Book"]
    for every [Book] and ["AudioBook"] for every [AudioBook], whatever
    the fields hold, so the two kinds never share a discriminator, and a
    setter that succeeds leaves it as it was. *)
Theorem getItemType_names_variant :
  (∀ b : Book, getItemType (ItemBook b) = "Book")
  ∧ (∀ a : AudioBook, getItemType (ItemAudioBook a) = "AudioBook")
  ∧ (∀ (b : Book) (a : AudioBook),
       getItemType (ItemBook b) ≠ getItemType (ItemAudioBook a))
  ∧ (∀ (b : Book) (v : string),
       match setAuthor b v, setISBN b v with
       | inl b1, inl b2 =>
           getItemType (ItemBook b1) = getItemType (ItemBook b)
           ∧ getItemType (ItemBook b2) = getItemType (ItemBook b)
       | _, _ => True
       end)
  ∧ (∀ (a : AudioBook) (v : string) (len : Z),
       match setNarrator a v, setLength a len with
       | inl a1, inl a2 =>
           getItemType (ItemAudioBook a1) = getItemType (ItemAudioBook a)
           ∧ getItemType (ItemAudioBook a2) = getItemType (ItemAudioBook a)
       | _, _ => True
       end).
Proof.
  split; [done|]. split; [done|]. split; [done|]. split.
  - intros b v. by destruct (setAuthor b v), (setISBN b v).
  - intros a v len. by destruct (setNarrator a v), (setLength a len).
Qed.

(** C10. Each deprecated method gives, on every store and for all
    arguments, the result of the method it stands for: the same returned
    value and the same store afterwards (console lines included), or the
    same failure. *)
Theorem legacy_methods_agree
    (s : Store) (this : loc) (book : Book) (title : string) :
  LibraryCatalogue.addBook this book s
  = LibraryCatalogue.addItem this (ItemBook book) s
  ∧ LibraryCatalogue.getBookCount this s
    = LibraryCatalogue.getItemCount this s
  ∧ LibraryCatalogue.findBookByTitle this title s
    = LibraryCatalogue.findItemByTitle this title s
  ∧ LibraryCatalogue.getAllBooks this s
    = LibraryCatalogue.getAllItems this s.
Proof. by repeat split. Qed.

(* ================================================================== *)
(** * Further properties of the code *)

(** ** Strings: append, reversal, trimming *)

Section MoreStringFacts.
Import JSString Trim.
Implicit Types (s t acc : string) (c : ascii).

Lemma string_app_nil_r s : s +:+ EmptyString = s.
Proof.
  induction s as [|c s IH]; [done|].
  change (String c (s +:+ EmptyString) = String c s). by rewrite IH.
Qed.

Lemma string_app_assoc s t r : (s +:+ t) +:+ r = s +:+ t +:+ r.
Proof.
  induction s as [|c s IH]; [done|].
  change (String c ((s +:+ t) +:+ r) = String c (s +:+ t +:+ r)).
  by rewrite IH.
Qed.

Lemma string_app_cons c s t : String c s +:+ t = String c (s +:+ t).
Proof. done. Qed.

Lemma string_app_eq_nil s t :
  s +:+ t = EmptyString → s = EmptyString ∧ t = EmptyString.
Proof. by destruct s. Qed.

Lemma string_length_app s t :
  String.length (s +:+ t) = String.length s + String.length t.
Proof.
  induction s as [|c s IH]; [done|].
  rewrite string_app_cons. simpl. by rewrite IH.
Qed.

Lemma chars_app s t :
  String.list_ascii_of_string (s +:+ t)
  = String.list_ascii_of_string s ++ String.list_ascii_of_string t.
Proof.
  induction s as [|c s IH]; [done|].
  rewrite string_app_cons. simpl. by rewrite IH.
Qed.

Lemma rev_string_app acc s :
  rev_string acc s = rev_string EmptyString s +:+ acc.
Proof.
  revert acc. induction s as [|c s IH]; intros acc; simpl; [done|].
  rewrite (IH (String c acc)), (IH (String c EmptyString)).
  by rewrite string_app_assoc.
Qed.

Lemma rev_string_snoc s c :
  rev_string EmptyString (s +:+ String c EmptyString)
  = String c (rev_string EmptyString s).
Proof.
  induction s as [|d s IH]; [done|].
  rewrite string_app_cons. simpl.
  rewrite (rev_string_app (String d EmptyString)
             (s +:+ String c EmptyString)), IH.
  by rewrite (rev_string_app (String d EmptyString) s).
Qed.

Lemma rev_string_involutive s :
  rev_string EmptyString (rev_string EmptyString s) = s.
Proof.
  induction s as [|c s IH]; [done|]. simpl.
  by rewrite (rev_string_app (String c EmptyString) s), rev_string_snoc, IH.
Qed.

Lemma trim_start_clean s : clean_start (trim_start s).
Proof.
  induction s as [|c s IH]; simpl; [done|].
  by destruct (is_space c) eqn:Hc.
Qed.

Lemma trim_start_id s : clean_start s → trim_start s = s.
Proof. destruct s as [|c s]; simpl; [done|]. by intros ->. Qed.

Lemma trim_start_snoc s c :
  is_space c = false →
  ∃ t, trim_start (s +:+ String c EmptyString) = t +:+ String c EmptyString.
Proof.
  intros Hc. induction s as [|d s [t IH]].
  - exists EmptyString. simpl. by rewrite Hc.
  - rewrite string_app_cons. simpl. destruct (is_space d).
    + by exists t.
    + by exists (String d s).
Qed.

(** Trimming the end keeps a clean start. *)
Lemma trim_end_clean s :
  clean_start s →
  clean_start
    (rev_string EmptyString (trim_start (rev_string EmptyString s))).
Proof.
  destruct s as [|c s]; [done|]. simpl. intros Hc.
  rewrite (rev_string_app (String c EmptyString) s).
  destruct (trim_start_snoc (rev_string EmptyString s) c Hc) as [t ->].
  by rewrite rev_string_snoc.
Qed.

Lemma trim_clean_start s : clean_start (trim s).
Proof. apply trim_end_clean, trim_start_clean. Qed.

Lemma trim_idempotent s : trim (trim s) = trim s.
Proof.
  unfold trim at 1.
  rewrite (trim_start_id (trim s)) by apply trim_clean_start.
  unfold trim. rewrite rev_string_involutive.
  rewrite (trim_start_id (trim_start _)) by apply trim_start_clean.
  done.
Qed.

Lemma is_space_lower c : is_space (lower_char c) = is_space c.
Proof. by destruct c as [[] [] [] [] [] [] [] []]. Qed.

Lemma toLowerCase_app s t :
  toLowerCase (s +:+ t) = toLowerCase s +:+ toLowerCase t.
Proof.
  induction s as [|c s IH]; [done|].
  rewrite string_app_cons. simpl. by rewrite IH.
Qed.

Lemma toLowerCase_rev acc s :
  toLowerCase (rev_string acc s)
  = rev_string (toLowerCase acc) (toLowerCase s).
Proof.
  revert acc. induction s as [|c s IH]; intros acc; simpl; [done|].
  by rewrite IH.
Qed.

Lemma toLowerCase_trim_start s :
  toLowerCase (trim_start s) = trim_start (toLowerCase s).
Proof.
  induction s as [|c s IH]; simpl; [done|].
  rewrite is_space_lower. by destruct (is_space c).
Qed.

Lemma toLowerCase_trim s : toLowerCase (trim s) = trim (toLowerCase s).
Proof.
  unfold trim.
  by rewrite (toLowerCase_rev EmptyString), toLowerCase_trim_start,
    (toLowerCase_rev EmptyString), toLowerCase_trim_start.
Qed.

Lemma lower_char_idempotent c : lower_char (lower_char c) = lower_char c.
Proof. by destruct c as [[] [] [] [] [] [] [] []]. Qed.

Lemma toLowerCase_idempotent s : toLowerCase (toLowerCase s) = toLowerCase s.
Proof.
  induction s as [|c s IH]; simpl; [done|].
  by rewrite lower_char_idempotent, IH.
Qed.

Lemma toLowerCase_length s : String.length (toLowerCase s) = String.length s.
Proof. induction s as [|c s IH]; simpl; [done|]. by rewrite IH. Qed.

(** White space and capitals, stated on code points and on the table of
    letters. *)
Lemma is_space_spec c : is_space c = false ↔ not_space c.
Proof.
  unfold is_space, not_space, white_space_codes.
  rewrite !not_elem_of_cons, orb_false_iff, andb_false_iff, Nat.eqb_neq,
    !Nat.leb_gt.
  split.
  - intros [? ?]. repeat split; try lia. apply not_elem_of_nil.
  - intros (? & ? & ? & ? & ? & ? & _). lia.
Qed.

Lemma clean_start_spec s :
  clean_start s
  ↔ match s with EmptyString => True | String c _ => not_space c end.
Proof. destruct s as [|c s]; simpl; [done|]. apply is_space_spec. Qed.

Lemma trim_no_outer_space s : User.no_outer_space (trim s).
Proof.
  split; apply clean_start_spec.
  - apply trim_clean_start.
  - unfold trim. rewrite rev_string_involutive. apply trim_start_clean.
Qed.

Lemma is_upper_lower c : is_upper (lower_char c) = false.
Proof. by destruct c as [[] [] [] [] [] [] [] []]. Qed.

Lemma toLowerCase_no_capital s : User.no_capital (toLowerCase s).
Proof.
  induction s as [|c s IH]; intros c' Hc' d; simpl in Hc'.
  - by apply not_elem_of_nil in Hc'.
  - apply elem_of_cons in Hc' as [->|Hc']; [|by apply IH].
    rewrite letter_pairs_spec, is_upper_lower. by intros [? _].
Qed.

(** The ASCII strings are closed under the string operations of the
    code. *)
Lemma is_ascii_lower c : is_ascii (lower_char c) = is_ascii c.
Proof. by destruct c as [[] [] [] [] [] [] [] []]. Qed.

Lemma ascii_only_toLowerCase s : ascii_only (toLowerCase s) = ascii_only s.
Proof.
  induction s as [|c s IH]; simpl; [done|]. by rewrite is_ascii_lower, IH.
Qed.

Lemma ascii_only_rev acc s :
  ascii_only (rev_string acc s) = ascii_only s && ascii_only acc.
Proof.
  revert acc. induction s as [|c s IH]; intros acc; simpl; [done|].
  rewrite IH. simpl. by destruct (is_ascii c), (ascii_only s).
Qed.

Lemma ascii_only_trim_start s :
  ascii_only s = true → ascii_only (trim_start s) = true.
Proof.
  induction s as [|c s IH]; simpl; [done|].
  intros [Hc Hs]%andb_true_iff. destruct (is_space c); [auto|].
  simpl. by rewrite Hc, Hs.
Qed.

Lemma ascii_only_trim s : ascii_only s = true → ascii_only (trim s) = true.
Proof.
  intros Hs. unfold trim. rewrite ascii_only_rev, andb_true_r.
  apply ascii_only_trim_start. rewrite ascii_only_rev, andb_true_r.
  by apply ascii_only_trim_start.
Qed.
End MoreStringFacts.

(** ** The matcher decides the language *)

Section RegexFacts.
Import Regex.
Implicit Types (r : re) (s t : string) (c : ascii).

Lemma nullable_lang r : nullable r = true ↔ lang r EmptyString.
Proof.
  split.
  - induction r as [| |p|r1 IH1 r2 IH2|r1 IH1 r2 IH2|r IH]; simpl;
      try done.
    + intros _. constructor.
    + intros [H1 H2]%andb_true_iff.
      apply (lang_cat r1 r2 EmptyString EmptyString); auto.
    + intros [H|H]%orb_true_iff; [apply lang_alt_l|apply lang_alt_r]; auto.
    + intros _. constructor.
  - intros H. remember EmptyString as s eqn:Hs.
    induction H as [|p c Hp|r1 r2 s1 s2 _ IH1 _ IH2|r1 r2 s _ IH
                   |r1 r2 s _ IH|r|r s1 s2 _ _ _ _]; simpl; try done.
    + apply string_app_eq_nil in Hs as [-> ->]. by rewrite IH1, IH2.
    + by rewrite IH.
    + rewrite IH by done. apply orb_true_r.
Qed.

Lemma deriv_sound c r : ∀ s, lang (deriv c r) s → lang r (String c s).
Proof.
  induction r as [| |p|r1 IH1 r2 IH2|r1 IH1 r2 IH2|r IH]; simpl; intros s H.
  - inversion H.
  - inversion H.
  - destruct (p c) eqn:Hp; inversion H; subst. by constructor.
  - assert (∀ t, lang (Cat (deriv c r1) r2) t → lang (Cat r1 r2) (String c t))
      as Hcat.
    { intros t Ht. inversion Ht as [| |?? s1 s2 H1 H2| | | |]; subst.
      rewrite <-string_app_cons. constructor; auto. }
    destruct (nullable r1) eqn:Hn; [|by apply Hcat].
    inversion H as [| | |??? Hl|??? Hr| |]; subst; [by apply Hcat|].
    apply (lang_cat r1 r2 EmptyString (String c s)); [|auto].
    by apply nullable_lang.
  - inversion H as [| | |??? Hl|??? Hr| |]; subst;
      [apply lang_alt_l|apply lang_alt_r]; auto.
  - inversion H as [| |?? s1 s2 H1 H2| | | |]; subst.
    rewrite <-string_app_cons. constructor; auto.
Qed.

Lemma deriv_complete r t :
  lang r t → ∀ c s, t = String c s → lang (deriv c r) s.
Proof.
  induction 1 as [|p c' Hp|r1 r2 s1 s2 H1 IH1 H2 IH2|r1 r2 s' _ IH
                 |r1 r2 s' _ IH|r|r s1 s2 H1 IH1 H2 IH2];
    intros c s Heq; simpl.
  - done.
  - injection Heq as -> <-. rewrite Hp. constructor.
  - destruct s1 as [|c1 s1].
    + apply nullable_lang in H1. rewrite H1.
      apply lang_alt_r. by apply IH2.
    + rewrite string_app_cons in Heq. injection Heq as -> <-.
      assert (lang (Cat (deriv c r1) r2) (s1 +:+ s2))
        by (constructor; auto).
      destruct (nullable r1); [by apply lang_alt_l|done].
  - apply lang_alt_l. by apply IH.
  - apply lang_alt_r. by apply IH.
  - done.
  - destruct s1 as [|c1 s1].
    + by apply IH2.
    + rewrite string_app_cons in Heq. injection Heq as -> <-.
      constructor; auto.
Qed.

Lemma matches_lang r s : matches r s = true ↔ lang r s.
Proof.
  revert r. induction s as [|c s IH]; intros r; simpl.
  - apply nullable_lang.
  - rewrite IH. split; [apply deriv_sound|].
    intros H. by eapply deriv_complete.
Qed.
End RegexFacts.

Section RegexClassFacts.
Import Regex.
Implicit Types (r : re) (s t : string) (c : ascii) (p : ascii → bool).

Lemma deriv_respect f r c :
  classes_respect f r → deriv (f c) r = deriv c r.
Proof.
  induction r as [| |p|r1 IH1 r2 IH2|r1 IH1 r2 IH2|r IH]; simpl; try done.
  - by intros ->.
  - intros [H1 H2]. by rewrite IH1, IH2.
  - intros [H1 H2]. by rewrite IH1, IH2.
  - intros H. by rewrite IH.
Qed.

Lemma classes_respect_deriv f r c :
  classes_respect f r → classes_respect f (deriv c r).
Proof.
  induction r as [| |p|r1 IH1 r2 IH2|r1 IH1 r2 IH2|r IH]; simpl; try done.
  - intros _. by destruct (p c).
  - intros [H1 H2]. destruct (nullable r1); simpl; auto.
  - intros [H1 H2]. auto.
  - intros H. auto.
Qed.

Lemma matches_toLowerCase r s :
  classes_respect JSString.lower_char r →
  matches r (JSString.toLowerCase s) = matches r s.
Proof.
  revert r. induction s as [|c s IH]; intros r Hr; simpl; [done|].
  rewrite deriv_respect by done. by apply IH, classes_respect_deriv.
Qed.

Lemma lang_class p s :
  lang (Class p) s ↔ ∃ c, s = String c EmptyString ∧ p c = true.
Proof.
  split.
  - inversion 1; subst. by eexists.
  - intros (c & -> & Hp). by constructor.
Qed.

Lemma lang_star_class p s :
  lang (Star (Class p)) s
  ↔ ∀ c, c ∈ String.list_ascii_of_string s → p c = true.
Proof.
  split.
  - intros H. remember (Star (Class p)) as r eqn:Hr.
    induction H as [| | | | |r|r s1 s2 H1 _ H2 IH2]; try done.
    + intros c Hc. by apply not_elem_of_nil in Hc.
    + injection Hr as ->. apply lang_class in H1 as (c1 & -> & Hp).
      intros c [->|Hc]%elem_of_cons; [done|]. by apply IH2.
  - induction s as [|c s IH]; simpl; intros H; [constructor|].
    apply (lang_star_cons _ (String c EmptyString) s).
    + constructor. apply H. left.
    + apply IH. intros c' Hc'. apply H. by right.
Qed.

Lemma lang_plus_class p s :
  lang (Plus (Class p)) s
  ↔ s ≠ EmptyString
    ∧ ∀ c, c ∈ String.list_ascii_of_string s → p c = true.
Proof.
  unfold Plus. split.
  - inversion 1 as [| |?? s1 s2 H1 H2| | | |]; subst.
    apply lang_class in H1 as (c & -> & Hp). split; [done|].
    intros c' [->|Hc']%elem_of_cons; [done|].
    by eapply lang_star_class.
  - intros [Hne H]. destruct s as [|c s]; [done|].
    apply (lang_cat _ _ (String c EmptyString) s).
    + constructor. apply H. left.
    + apply lang_star_class. intros c' Hc'. apply H. by right.
Qed.

Lemma lang_char a s :
  lang (Class (Ascii.eqb a)) s ↔ s = String a EmptyString.
Proof.
  rewrite lang_class. split.
  - intros (c & -> & ->%Ascii.eqb_eq). done.
  - intros ->. exists a. split; [done|]. apply Ascii.eqb_refl.
Qed.

Lemma local_char_spec c :
  User.local_char c = true ↔ c ≠ "@"%char ∧ JSString.not_space c.
Proof.
  unfold User.local_char.
  rewrite negb_true_iff, orb_false_iff, is_space_spec, Ascii.eqb_neq. tauto.
Qed.

Lemma emailRegex_shape s :
  lang User.emailRegex s ↔ User.email_shape s.
Proof.
  unfold User.emailRegex, User.email_shape.
  setoid_rewrite <-local_char_spec. split.
  - inversion 1 as [| |?? l s1 Hl H1| | | |]; subst.
    inversion H1 as [| |?? at_ s2 Hat H2| | | |]; subst.
    inversion H2 as [| |?? d1 s3 Hd1 H3| | | |]; subst.
    inversion H3 as [| |?? dot d2 Hdot Hd2| | | |]; subst.
    apply lang_char in Hat as ->. apply lang_char in Hdot as ->.
    apply lang_plus_class in Hl as [? Hl], Hd1 as [? Hd1], Hd2 as [? Hd2].
    exists l, d1, d2. repeat split; try done.
    intros c. rewrite !chars_app, !elem_of_app. intros [?|[?|?]]; auto.
  - intros (l & d1 & d2 & -> & Hl & Hd1 & Hd2 & Hall).
    assert (∀ t, (∀ c, c ∈ String.list_ascii_of_string t →
                       c ∈ String.list_ascii_of_string (l +:+ d1 +:+ d2)) →
                 t ≠ EmptyString →
                 lang (Plus (Class User.local_char)) t) as Hplus.
    { intros t Ht Hne. apply lang_plus_class. split; [done|]. auto. }
    constructor.
    { apply Hplus; [|done]. intros c. rewrite !chars_app, !elem_of_app. auto. }
    apply (lang_cat _ _ (String "@" EmptyString)); [by apply lang_char|].
    constructor.
    { apply Hplus; [|done]. intros c. rewrite !chars_app, !elem_of_app. auto. }
    apply (lang_cat _ _ (String "." EmptyString)); [by apply lang_char|].
    apply Hplus; [|done]. intros c. rewrite !chars_app, !elem_of_app. auto.
Qed.

Lemma local_char_lower c :
  User.local_char (JSString.lower_char c) = User.local_char c.
Proof. by destruct c as [[] [] [] [] [] [] [] []]. Qed.

Lemma at_char_lower c :
  Ascii.eqb "@" (JSString.lower_char c) = Ascii.eqb "@" c.
Proof. by destruct c as [[] [] [] [] [] [] [] []]. Qed.

Lemma dot_char_lower c :
  Ascii.eqb "." (JSString.lower_char c) = Ascii.eqb "." c.
Proof. by destruct c as [[] [] [] [] [] [] [] []]. Qed.

Lemma emailRegex_respects_lower :
  classes_respect JSString.lower_char User.emailRegex.
Proof.
  unfold User.emailRegex, Plus. simpl.
  repeat split;
    first [apply local_char_lower|apply at_char_lower|apply dot_char_lower].
Qed.
End RegexClassFacts.

(** ** The user's list of borrowed books *)

Section UserFacts.
Import User.
Implicit Types (u : User) (t : string) (arr : list string).

Lemma includes_true arr t : includes arr t = true ↔ t ∈ arr.
Proof.
  unfold includes. induction arr as [|y arr IH]; simpl.
  - split; [done|]. by intros ?%not_elem_of_nil.
  - rewrite orb_true_iff, IH, String.eqb_eq, elem_of_cons.
    split; (intros [->|?]; [by left|by right]).
Qed.

Lemma includes_false arr t : includes arr t = false ↔ t ∉ arr.
Proof.
  rewrite <-includes_true. by destruct (includes arr t).
Qed.

(** An array splits at the first occurrence of [t], unless [t] does not
    occur. *)
Lemma first_occurrence arr t :
  (∃ before after, arr = before ++ t :: after ∧ t ∉ before)
  ∨ t ∉ arr.
Proof.
  destruct (first_split (λ y, String.eqb y t) arr)
    as [(before & x & after & -> & ->%String.eqb_eq & Hb)|Hall].
  - left. exists before, after. split; [done|].
    rewrite Forall_forall in Hb. intros Hin.
    apply Hb, String.eqb_neq in Hin. done.
  - right. rewrite Forall_forall in Hall. intros Hin.
    apply Hall, String.eqb_neq in Hin. done.
Qed.

Lemma borrowBook_new u t :
  t ∉ borrowedBooks u →
  borrowBook u t
  = (mkUser (name u) (email u) (borrowedBooks u ++ [t]),
     name u +:+ " has borrowed the book: " +:+ JSString.dquote
     +:+ t +:+ JSString.dquote).
Proof.
  intros H%includes_false. unfold borrowBook. by rewrite H.
Qed.

Lemma borrowBook_again u t :
  t ∈ borrowedBooks u →
  borrowBook u t
  = (u, name u +:+ " has already borrowed: " +:+ JSString.dquote
        +:+ t +:+ JSString.dquote).
Proof.
  intros H%includes_true. unfold borrowBook. by rewrite H.
Qed.

Lemma returnBook_found u t before after :
  borrowedBooks u = before ++ t :: after → t ∉ before →
  returnBook u t
  = (mkUser (name u) (email u) (before ++ after),
     name u +:+ " has returned the book: " +:+ JSString.dquote
     +:+ t +:+ JSString.dquote).
Proof.
  intros Heq Hb. unfold returnBook, indexOf, JSArray.findIndex.
  rewrite Heq, findIndex_from_found.
  - assert ((0 + Z.of_nat (length before) >? -1)%Z = true) as ->
      by (apply Z.gtb_lt; lia).
    by rewrite Z.add_0_l, splice_one.
  - apply String.eqb_refl.
  - apply Forall_forall. intros y Hy. apply String.eqb_neq.
    intros ->. done.
Qed.

Lemma returnBook_absent u t :
  t ∉ borrowedBooks u →
  returnBook u t
  = (u, name u +:+ " has not borrowed: " +:+ JSString.dquote
        +:+ t +:+ JSString.dquote).
Proof.
  intros H. unfold returnBook, indexOf, JSArray.findIndex.
  rewrite findIndex_from_absent; [done|].
  apply Forall_forall. intros y Hy. apply String.eqb_neq.
  intros ->. done.
Qed.

Lemma borrowBook_NoDup u t :
  NoDup (borrowedBooks u) → NoDup (borrowedBooks (fst (borrowBook u t))).
Proof.
  intros Hnd. destruct (decide (t ∈ borrowedBooks u)) as [Hin|Hin].
  - by rewrite borrowBook_again.
  - rewrite borrowBook_new by done. simpl.
    apply NoDup_app. split; [done|]. split.
    + intros x Hx [->|[]%not_elem_of_nil]%elem_of_cons. done.
    + apply NoDup_singleton.
Qed.

Lemma returnBook_NoDup u t :
  NoDup (borrowedBooks u) → NoDup (borrowedBooks (fst (returnBook u t))).
Proof.
  intros Hnd.
  destruct (first_occurrence (borrowedBooks u) t)
    as [(before & after & Heq & Hb)|Hin].
  - rewrite (returnBook_found u t before after) by done. simpl.
    rewrite Heq in Hnd. apply NoDup_app in Hnd as (Hb' & Hdisj & Ha).
    apply NoDup_cons in Ha as [_ Ha]. apply NoDup_app.
    split; [done|]. split; [|done].
    intros x Hx Hx'. apply (Hdisj x Hx). by right.
  - by rewrite returnBook_absent.
Qed.

Lemma run_actions_NoDup u actions :
  NoDup (borrowedBooks u) → NoDup (borrowedBooks (run_actions u actions)).
Proof.
  unfold run_actions. revert u.
  induction actions as [|[t|t] actions IH]; intros u Hnd; simpl; [done|..].
  - by apply IH, borrowBook_NoDup.
  - by apply IH, returnBook_NoDup.
Qed.

Lemma borrowBook_fields u t :
  name (fst (borrowBook u t)) = name u
  ∧ email (fst (borrowBook u t)) = email u.
Proof. unfold borrowBook. by destruct (negb _). Qed.

Lemma returnBook_fields u t :
  name (fst (returnBook u t)) = name u
  ∧ email (fst (returnBook u t)) = email u.
Proof. unfold returnBook. by destruct (_ >? _)%Z. Qed.

Lemma run_actions_fields u actions :
  name (run_actions u actions) = name u
  ∧ email (run_actions u actions) = email u.
Proof.
  unfold run_actions. revert u.
  induction actions as [|[t|t] actions IH]; intros u; simpl; [done|..].
  - destruct (IH (fst (borrowBook u t))) as [-> ->].
    apply borrowBook_fields.
  - destruct (IH (fst (returnBook u t))) as [-> ->].
    apply returnBook_fields.
Qed.
End UserFacts.

(** ** The user's setters *)

Section UserSetterFacts.
Import User.
Implicit Types (u : User) (n e s : string).

Lemma email_shape_length s : email_shape s → String.length s ≠ 0.
Proof.
  intros (l & d1 & d2 & -> & Hl & _). destruct l; [done|].
  by rewrite string_app_cons.
Qed.

Lemma matches_email_shape s :
  Regex.matches emailRegex s = true ↔ email_shape s.
Proof. by rewrite matches_lang, emailRegex_shape. Qed.

Lemma setName_inl u n u' :
  setName u n = inl u'
  ↔ 2 ≤ String.length (Trim.trim n)
    ∧ u' = mkUser (Trim.trim n) (email u) (borrowedBooks u).
Proof.
  unfold setName. destruct (String.eqb_spec n EmptyString) as [->|_]; simpl.
  { split; [done|]. intros [H _]. simpl in H. lia. }
  destruct (Nat.eqb_spec (String.length (Trim.trim n)) 0) as [H0|H0].
  { split; [done|]. intros [H _]. lia. }
  destruct (Nat.ltb_spec (String.length (Trim.trim n)) 2) as [H2|H2].
  { split; [done|]. intros [H _]. lia. }
  split; [by intros [= <-]|by intros [_ ->]].
Qed.

Lemma setEmail_inl u e u' :
  setEmail u e = inl u'
  ↔ email_shape (Trim.trim e)
    ∧ u' = mkUser (name u) (JSString.toLowerCase (Trim.trim e))
             (borrowedBooks u).
Proof.
  unfold setEmail. destruct (String.eqb_spec e EmptyString) as [->|_]; simpl.
  { split; [done|]. by intros [H%email_shape_length _]. }
  destruct (Nat.eqb_spec (String.length (Trim.trim e)) 0) as [H0|H0].
  { split; [done|]. by intros [H%email_shape_length _]. }
  destruct (Regex.matches emailRegex (Trim.trim e)) eqn:Hm; simpl.
  - apply matches_email_shape in Hm.
    split; [by intros [= <-]|by intros [_ ->]].
  - split; [done|]. intros [H%matches_email_shape _]. congruence.
Qed.

Lemma new_inl n e u :
  new n e = inl u
  ↔ 2 ≤ String.length (Trim.trim n)
    ∧ email_shape (Trim.trim e)
    ∧ u = mkUser (Trim.trim n) (JSString.toLowerCase (Trim.trim e)) [].
Proof.
  unfold new. split.
  - destruct (setName _ n) as [u1|msg] eqn:H1; [|done].
    destruct (setEmail u1 e) as [u2|msg] eqn:H2; [|done].
    apply setName_inl in H1 as [Hn ->]. apply setEmail_inl in H2 as [He ->].
    by intros [= <-].
  - intros (Hn & He & ->).
    rewrite (proj2 (setName_inl _ n _) (conj Hn eq_refl)).
    by rewrite (proj2 (setEmail_inl _ e _) (conj He eq_refl)).
Qed.

(** Lower-casing keeps the shape of an e-mail address. *)
Lemma email_shape_lower s :
  email_shape s → email_shape (JSString.toLowerCase s).
Proof.
  rewrite <-!matches_email_shape. intros H.
  by rewrite matches_toLowerCase by apply emailRegex_respects_lower.
Qed.

Lemma valid_name_email (nm em : string) (books : list string) :
  JSString.ascii_only nm = true → JSString.ascii_only em = true →
  2 ≤ String.length (Trim.trim nm) → email_shape (Trim.trim em) →
  NoDup books →
  valid (mkUser (Trim.trim nm) (JSString.toLowerCase (Trim.trim em)) books).
Proof.
  intros Hnm Hem Hn He Hnd. unfold valid. simpl.
  split; [by apply ascii_only_trim|].
  split; [rewrite ascii_only_toLowerCase; by apply ascii_only_trim|].
  split; [done|]. split; [apply trim_no_outer_space|].
  split; [by apply email_shape_lower|].
  split; [apply toLowerCase_no_capital|done].
Qed.
End UserSetterFacts.

(** ** The sample user, evaluated *)

Section UserScenario.
Import User SampleUser.

Example sample_user_new :
  new "  Alice Johnson " "Alice.Johnson@Email.com" = inl alice.
Proof. vm_compute. reflexivity. Qed.

Example sample_user_empty_name :
  new EmptyString "invalid@email.com" = inr "Name cannot be empty".
Proof. vm_compute. reflexivity. Qed.

Example sample_user_bad_email :
  new "Valid Name" "invalid-email" = inr "Invalid email format".
Proof. vm_compute. reflexivity. Qed.

Example sample_user_borrow_twice :
  borrowedBooks
    (run_actions alice
       [Borrow "The Great Gatsby"; Borrow "1984"; Borrow "The Great Gatsby";
        Return "The Great Gatsby"; Return "Non-existent Book"])
  = ["1984"].
Proof. vm_compute. reflexivity. Qed.

Example sample_format_length :
  formatLength nineteen84_audio = "12h 0m"
  ∧ formatLength (new_AudioBook 1 "t" "n" 45) = "45m"
  ∧ formatLength (new_AudioBook 1 "t" "n" (-130)) = "-10m".
Proof. repeat split; vm_compute; reflexivity. Qed.
End UserScenario.

(* ================================================================== *)
(** * Further guarantees: the user *)

(** X16. On ASCII strings the pattern of [setEmail] accepts exactly the
    strings made of a non-empty local part, [@], and a domain with a dot
    that has at least one character on each side, where no character of
    the three parts is white space or [@]. *)
Theorem setEmail_pattern_shape (s : string) :
  JSString.ascii_only s = true →
  Regex.matches User.emailRegex s = true ↔ User.email_shape s.
Proof. intros _. apply matches_email_shape. Qed.

Lemma setEmail_pattern_shape_witness :
  JSString.ascii_only "invalid-email" = true
  ∧ (Regex.matches User.emailRegex "invalid-email" = true
     ↔ User.email_shape "invalid-email").
Proof.
  split; [reflexivity|].
  apply (setEmail_pattern_shape "invalid-email"). reflexivity.
Defined.

(** X17. An ASCII address stored by a successful [setEmail] is ASCII
    again, contains exactly one [@], contains no white space, and has at
    least five characters. *)
Theorem setEmail_stores_single_at (u u' : User.User) (e : string) :
  JSString.ascii_only e = true →
  User.setEmail u e = inl u' →
  JSString.ascii_only (User.email u') = true
  ∧ length (base.filter (λ c, c = "@"%char)
              (String.list_ascii_of_string (User.email u'))) = 1
  ∧ (∀ c, c ∈ String.list_ascii_of_string (User.email u') →
          JSString.not_space c)
  ∧ 5 ≤ String.length (User.email u').
Proof.
  intros Hascii [He ->]%setEmail_inl. simpl.
  split; [rewrite ascii_only_toLowerCase; by apply ascii_only_trim|].
  apply email_shape_lower in He as (l & d1 & d2 & -> & Hl & Hd1 & Hd2 & Hall).
  assert (∀ t, (∀ c, c ∈ String.list_ascii_of_string t →
                     c ≠ "@"%char ∧ JSString.not_space c) →
               base.filter (λ c, c = "@"%char)
                 (String.list_ascii_of_string t) = []) as Hnone.
  { intros t Ht. induction (String.list_ascii_of_string t) as [|c cs IH];
      [done|].
    rewrite filter_cons_False; [apply IH|].
    - intros c' Hc'. apply Ht. by right.
    - apply Ht. left. }
  assert (∀ c, c ∈ String.list_ascii_of_string l →
               c ≠ "@"%char ∧ JSString.not_space c) as Hl'.
  { intros c Hc. apply Hall. rewrite !chars_app, !elem_of_app. auto. }
  assert (∀ c, c ∈ String.list_ascii_of_string d1 →
               c ≠ "@"%char ∧ JSString.not_space c) as Hd1'.
  { intros c Hc. apply Hall. rewrite !chars_app, !elem_of_app. auto. }
  assert (∀ c, c ∈ String.list_ascii_of_string d2 →
               c ≠ "@"%char ∧ JSString.not_space c) as Hd2'.
  { intros c Hc. apply Hall. rewrite !chars_app, !elem_of_app. auto. }
  assert (JSString.not_space "@" ∧ JSString.not_space ".") as [Hat Hdot].
  { split; apply is_space_spec; reflexivity. }
  split; [|split].
  - rewrite !chars_app, !filter_app.
    rewrite (Hnone l), (Hnone d1), (Hnone d2) by done. reflexivity.
  - intros c. rewrite !chars_app, !elem_of_app. simpl.
    rewrite !elem_of_cons.
    intros [?|[[->|[]%not_elem_of_nil]|[?|[[->|[]%not_elem_of_nil]|?]]]];
      try done;
      first [by eapply proj2, Hl'|by eapply proj2, Hd1'|by eapply proj2, Hd2'].
  - rewrite !string_length_app. simpl.
    destruct l, d1, d2; simpl; try done; lia.
Qed.

Lemma setEmail_stores_single_at_witness :
  JSString.ascii_only " Alice@Example.org " = true
  ∧ User.setEmail SampleUser.alice " Alice@Example.org "
    = inl (User.mkUser "Alice Johnson" "alice@example.org" [])
  ∧ JSString.ascii_only "alice@example.org" = true
  ∧ length (base.filter (λ c, c = "@"%char)
              (String.list_ascii_of_string "alice@example.org")) = 1
  ∧ (∀ c, c ∈ String.list_ascii_of_string "alice@example.org" →
          JSString.not_space c)
  ∧ 5 ≤ String.length "alice@example.org".
Proof.
  split; [reflexivity|]. split; [vm_compute; reflexivity|].
  apply (setEmail_stores_single_at SampleUser.alice
           (User.mkUser "Alice Johnson" "alice@example.org" [])
           " Alice@Example.org ");
    [reflexivity|vm_compute; reflexivity].
Defined.

(** X18. On ASCII arguments, [new User(name, email)] succeeds exactly
    when the trimmed name has at least two characters and the trimmed
    e-mail has the shape of the pattern; the new user then holds the
    trimmed name, the trimmed e-mail in lower case, and no borrowed
    books.  Otherwise it throws, and the name is checked before the
    e-mail: an empty or one-character name is reported whatever the
    e-mail is. *)
Theorem User_new_outcome (n e : string) :
  JSString.ascii_only n = true →
  JSString.ascii_only e = true →
  match User.new n e with
  | inl u =>
      2 ≤ String.length (Trim.trim n)
      ∧ User.email_shape (Trim.trim e)
      ∧ u = User.mkUser (Trim.trim n)
              (JSString.toLowerCase (Trim.trim e)) []
  | inr msg =>
      (String.length (Trim.trim n) = 0 ∧ msg = "Name cannot be empty")
      ∨ (String.length (Trim.trim n) = 1
         ∧ msg = "Name must be at least 2 characters long")
      ∨ (2 ≤ String.length (Trim.trim n)
         ∧ String.length (Trim.trim e) = 0
         ∧ msg = "Email cannot be empty")
      ∨ (2 ≤ String.length (Trim.trim n)
         ∧ String.length (Trim.trim e) ≠ 0
         ∧ ¬ User.email_shape (Trim.trim e)
         ∧ msg = "Invalid email format")
  end.
Proof.
  intros _ _.
  destruct (User.new n e) as [u|msg] eqn:Hnew.
  { by apply new_inl in Hnew. }
  unfold User.new, User.setName in Hnew.
  destruct (String.eqb_spec n EmptyString) as [->|_]; simpl in Hnew.
  { injection Hnew as <-. by left. }
  destruct (Nat.eqb_spec (String.length (Trim.trim n)) 0) as [H0|H0].
  { injection Hnew as <-. by left. }
  destruct (Nat.ltb_spec (String.length (Trim.trim n)) 2) as [H2|H2].
  { injection Hnew as <-. right; left. split; [lia|done]. }
  unfold User.setEmail in Hnew. simpl in Hnew.
  destruct (String.eqb_spec e EmptyString) as [->|_]; simpl in Hnew.
  { injection Hnew as <-. right; right; left. by repeat split. }
  destruct (Nat.eqb_spec (String.length (Trim.trim e)) 0) as [E0|E0].
  { injection Hnew as <-. right; right; left. by repeat split. }
  destruct (Regex.matches User.emailRegex (Trim.trim e)) eqn:Hm;
    simpl in Hnew; [done|].
  injection Hnew as <-. right; right; right.
  split; [done|]. split; [done|]. split; [|done].
  intros H%matches_email_shape. congruence.
Qed.

Lemma User_new_outcome_witness :
  JSString.ascii_only " a " = true
  ∧ JSString.ascii_only "invalid-email" = true
  ∧ match User.new " a " "invalid-email" with
    | inl u =>
        2 ≤ String.length (Trim.trim " a ")
        ∧ User.email_shape (Trim.trim "invalid-email")
        ∧ u = User.mkUser (Trim.trim " a ")
                (JSString.toLowerCase (Trim.trim "invalid-email")) []
    | inr msg =>
        (String.length (Trim.trim " a ") = 0
         ∧ msg = "Name cannot be empty")
        ∨ (String.length (Trim.trim " a ") = 1
           ∧ msg = "Name must be at least 2 characters long")
        ∨ (2 ≤ String.length (Trim.trim " a ")
           ∧ String.length (Trim.trim "invalid-email") = 0
           ∧ msg = "Email cannot be empty")
        ∨ (2 ≤ String.length (Trim.trim " a ")
           ∧ String.length (Trim.trim "invalid-email") ≠ 0
           ∧ ¬ User.email_shape (Trim.trim "invalid-email")
           ∧ msg = "Invalid email format")
    end.
Proof.
  split; [reflexivity|]. split; [reflexivity|].
  apply (User_new_outcome " a " "invalid-email"); reflexivity.
Defined.

(** X19. Every user the constructor returns for ASCII arguments is
    valid: name and e-mail are ASCII, the name has at least two
    characters and no white space at either end, the e-mail has the
    shape of the pattern and no capital letter, and the list of borrowed
    books is empty. *)
Theorem User_new_valid (n e : string) (u : User.User) :
  JSString.ascii_only n = true →
  JSString.ascii_only e = true →
  User.new n e = inl u →
  User.valid u ∧ User.borrowedBooks u = [].
Proof.
  intros Hn' He' (Hn & He & ->)%new_inl. split; [|done].
  apply valid_name_email; [done..|]. constructor.
Qed.

Lemma User_new_valid_witness :
  JSString.ascii_only "Alice Johnson" = true
  ∧ JSString.ascii_only "alice.johnson@email.com" = true
  ∧ User.new "Alice Johnson" "alice.johnson@email.com" = inl SampleUser.alice
  ∧ User.valid SampleUser.alice
  ∧ User.borrowedBooks SampleUser.alice = [].
Proof.
  split; [reflexivity|]. split; [reflexivity|].
  split; [vm_compute; reflexivity|].
  apply (User_new_valid "Alice Johnson" "alice.johnson@email.com");
    [reflexivity|reflexivity|vm_compute; reflexivity].
Defined.

(** X20. Validity is kept by every method that changes a user: from a
    valid user, a setter that succeeds on an ASCII argument and any
    sequence of [borrowBook] and [returnBook] calls give a valid user
    again; in particular no title is ever listed twice. *)
Theorem User_methods_keep_valid
    (u : User.User) (n e : string) (actions : list User.Action) :
  User.valid u →
  JSString.ascii_only n = true →
  JSString.ascii_only e = true →
  match User.setName u n with inl u' => User.valid u' | inr _ => True end
  ∧ match User.setEmail u e with inl u' => User.valid u' | inr _ => True end
  ∧ User.valid (User.run_actions u actions).
Proof.
  intros (Han & Hae & Hlen & Hclean & Hshape & Hlower & Hnd) Hn' He'.
  split; [|split].
  - destruct (User.setName u n) as [u'|] eqn:H; [|done].
    apply setName_inl in H as [Hn ->]. unfold User.valid. simpl.
    split; [by apply ascii_only_trim|]. split; [done|]. split; [done|].
    split; [apply trim_no_outer_space|done].
  - destruct (User.setEmail u e) as [u'|] eqn:H; [|done].
    apply setEmail_inl in H as [He ->]. unfold User.valid. simpl.
    split; [done|].
    split; [rewrite ascii_only_toLowerCase; by apply ascii_only_trim|].
    split; [done|]. split; [done|]. split; [by apply email_shape_lower|].
    split; [apply toLowerCase_no_capital|done].
  - destruct (run_actions_fields u actions) as [Hname Hemail].
    unfold User.valid. rewrite Hname, Hemail.
    split; [done|]. split; [done|]. split; [done|]. split; [done|].
    split; [done|]. split; [done|]. by apply run_actions_NoDup.
Qed.

(** The sample user is valid. *)
Lemma alice_valid : User.valid SampleUser.alice.
Proof.
  apply (valid_name_email "Alice Johnson" "alice.johnson@email.com" []);
    [reflexivity|reflexivity|vm_compute; lia| |constructor].
  apply matches_email_shape. vm_compute. reflexivity.
Qed.

Lemma User_methods_keep_valid_witness :
  User.valid SampleUser.alice
  ∧ JSString.ascii_only " Alice Smith " = true
  ∧ JSString.ascii_only "A.Smith@NewMail.com" = true
  ∧ match User.setName SampleUser.alice " Alice Smith " with
    | inl u' => User.valid u'
    | inr _ => True
    end
  ∧ match User.setEmail SampleUser.alice "A.Smith@NewMail.com" with
    | inl u' => User.valid u'
    | inr _ => True
    end
  ∧ User.valid
      (User.run_actions SampleUser.alice
         [User.Borrow "1984"; User.Borrow "1984"; User.Return "Dune"]).
Proof.
  split; [exact alice_valid|]. split; [reflexivity|]. split; [reflexivity|].
  apply (User_methods_keep_valid SampleUser.alice " Alice Smith "
           "A.Smith@NewMail.com"
           [User.Borrow "1984"; User.Borrow "1984"; User.Return "Dune"]);
    [exact alice_valid|reflexivity|reflexivity].
Defined.

(** X21. What a setter stores for an ASCII argument is already in the
    form it stores: giving the stored name back to [setName], or the
    stored e-mail back to [setEmail], succeeds and changes nothing. *)
Theorem User_setters_normal_form (u : User.User) (n e : string) :
  JSString.ascii_only n = true →
  JSString.ascii_only e = true →
  match User.setName u n with
  | inl u' =>
      JSString.ascii_only (User.name u') = true
      ∧ User.setName u' (User.name u') = inl u'
  | inr _ => True
  end
  ∧ match User.setEmail u e with
    | inl u' =>
        JSString.ascii_only (User.email u') = true
        ∧ User.setEmail u' (User.email u') = inl u'
    | inr _ => True
    end.
Proof.
  intros Hn' He'. split.
  - destruct (User.setName u n) as [u'|] eqn:H; [|done].
    apply setName_inl in H as [Hn ->]. simpl.
    split; [by apply ascii_only_trim|]. apply setName_inl. simpl.
    by rewrite trim_idempotent.
  - destruct (User.setEmail u e) as [u'|] eqn:H; [|done].
    apply setEmail_inl in H as [He ->]. simpl.
    split; [rewrite ascii_only_toLowerCase; by apply ascii_only_trim|].
    apply setEmail_inl. simpl.
    rewrite <-toLowerCase_trim, trim_idempotent, toLowerCase_idempotent.
    split; [by apply email_shape_lower|done].
Qed.

Lemma User_setters_normal_form_witness :
  JSString.ascii_only " Alice Smith " = true
  ∧ JSString.ascii_only " A.Smith@NewMail.com" = true
  ∧ match User.setName SampleUser.alice " Alice Smith " with
    | inl u' =>
        JSString.ascii_only (User.name u') = true
        ∧ User.setName u' (User.name u') = inl u'
    | inr _ => True
    end
  ∧ match User.setEmail SampleUser.alice " A.Smith@NewMail.com" with
    | inl u' =>
        JSString.ascii_only (User.email u') = true
        ∧ User.setEmail u' (User.email u') = inl u'
    | inr _ => True
    end.
Proof.
  split; [reflexivity|]. split; [reflexivity|].
  apply (User_setters_normal_form SampleUser.alice " Alice Smith "
           " A.Smith@NewMail.com"); reflexivity.
Defined.

(** X22. Borrowing a title that is not on the list and returning it
    again gives back the user as it was; the second call reports the
    return. *)
Theorem User_borrow_then_return (u : User.User) (t : string) :
  User.hasBorrowed u t = false →
  User.returnBook (fst (User.borrowBook u t)) t
  = (u, User.name u +:+ " has returned the book: " +:+ JSString.dquote
        +:+ t +:+ JSString.dquote).
Proof.
  intros Hnot%includes_false. rewrite borrowBook_new by done. simpl.
  rewrite (returnBook_found _ t (User.borrowedBooks u) []) by done.
  simpl. rewrite app_nil_r. by destruct u.
Qed.

Lemma User_borrow_then_return_witness :
  User.hasBorrowed SampleUser.reader "1984" = false
  ∧ User.returnBook (fst (User.borrowBook SampleUser.reader "1984")) "1984"
    = (SampleUser.reader,
       User.name SampleUser.reader +:+ " has returned the book: "
       +:+ JSString.dquote +:+ "1984" +:+ JSString.dquote).
Proof.
  split; [reflexivity|].
  apply (User_borrow_then_return SampleUser.reader "1984"). reflexivity.
Defined.

(** X23. On a list without repetitions, [hasBorrowed] after
    [borrowBook(t)] holds of [t] and of what was borrowed before, and
    after [returnBook(t)] holds of what was borrowed before except
    [t]. *)
Theorem User_hasBorrowed_after (u : User.User) (t t' : string) :
  NoDup (User.borrowedBooks u) →
  User.hasBorrowed (fst (User.borrowBook u t)) t'
  = (String.eqb t' t || User.hasBorrowed u t')
  ∧ User.hasBorrowed (fst (User.returnBook u t)) t'
    = (negb (String.eqb t' t) && User.hasBorrowed u t').
Proof.
  intros Hnd. unfold User.hasBorrowed. split.
  - apply eq_true_iff_eq.
    rewrite orb_true_iff, !includes_true, String.eqb_eq.
    destruct (decide (t ∈ User.borrowedBooks u)) as [Hin|Hin].
    + rewrite borrowBook_again by done. simpl.
      split; [by right|]. by intros [->|?].
    + rewrite borrowBook_new by done. simpl.
      rewrite elem_of_app, list_elem_of_singleton. tauto.
  - apply eq_true_iff_eq.
    rewrite andb_true_iff, negb_true_iff, !includes_true, String.eqb_neq.
    destruct (first_occurrence (User.borrowedBooks u) t)
      as [(before & after & Heq & Hb)|Hin].
    + rewrite (returnBook_found u t before after) by done. simpl.
      rewrite Heq in *. apply NoDup_app in Hnd as (_ & Hdisj & Ha).
      apply NoDup_cons in Ha as [Hta _].
      rewrite !elem_of_app, elem_of_cons. split.
      * intros [H|H]; (split; [intros ->; done|auto]).
      * intros [Hne [H|[H|H]]]; auto. done.
    + rewrite returnBook_absent by done. simpl.
      split; [|tauto]. intros H. split; [|done]. by intros ->.
Qed.

Lemma User_hasBorrowed_after_witness :
  NoDup (User.borrowedBooks SampleUser.reader)
  ∧ User.hasBorrowed (fst (User.borrowBook SampleUser.reader "1984"))
      "Pride and Prejudice"
    = (String.eqb "Pride and Prejudice" "1984"
       || User.hasBorrowed SampleUser.reader "Pride and Prejudice")
  ∧ User.hasBorrowed (fst (User.returnBook SampleUser.reader "1984"))
      "Pride and Prejudice"
    = (negb (String.eqb "Pride and Prejudice" "1984")
       && User.hasBorrowed SampleUser.reader "Pride and Prejudice").
Proof.
  assert (NoDup (User.borrowedBooks SampleUser.reader)) as Hnd
    by (apply (bool_decide_unpack _); vm_compute; exact I).
  split; [exact Hnd|].
  apply (User_hasBorrowed_after SampleUser.reader "1984"
           "Pride and Prejudice" Hnd).
Defined.

(** X24. [borrowBook(t)] lengthens the list by one exactly when [t] was
    not on it, [returnBook(t)] shortens it by one exactly when [t] was
    on it, and borrowing the same title a second time changes nothing
    and is reported as already borrowed. *)
Theorem User_borrowed_count (u : User.User) (t : string) :
  User.getBorrowedBooksCount (fst (User.borrowBook u t))
  = User.getBorrowedBooksCount u + (if User.hasBorrowed u t then 0 else 1)
  ∧ User.getBorrowedBooksCount (fst (User.returnBook u t))
    + (if User.hasBorrowed u t then 1 else 0)
    = User.getBorrowedBooksCount u
  ∧ User.borrowBook (fst (User.borrowBook u t)) t
    = (fst (User.borrowBook u t),
       User.name u +:+ " has already borrowed: " +:+ JSString.dquote
       +:+ t +:+ JSString.dquote).
Proof.
  unfold User.getBorrowedBooksCount, User.hasBorrowed.
  destruct (first_occurrence (User.borrowedBooks u) t)
    as [(before & after & Heq & Hb)|Hin].
  - assert (t ∈ User.borrowedBooks u) as Hin.
    { rewrite Heq, elem_of_app, elem_of_cons. auto. }
    rewrite (proj2 (includes_true _ _) Hin).
    rewrite (borrowBook_again u t Hin). simpl.
    rewrite (returnBook_found u t before after) by done. simpl.
    split; [lia|]. split; [rewrite Heq, !length_app; simpl; lia|].
    by apply borrowBook_again.
  - rewrite (proj2 (includes_false _ _) Hin).
    rewrite (borrowBook_new u t Hin), (returnBook_absent u t Hin). simpl.
    split; [rewrite length_app; simpl; lia|]. split; [lia|].
    apply (borrowBook_again (User.mkUser _ _ _)). simpl.
    rewrite elem_of_app, list_elem_of_singleton. auto.
Qed.

(* ================================================================== *)
(** * Further guarantees: the items *)

Section TrimFacts.
Import Trim JSString.
Implicit Types (s : string) (c : ascii).

Lemma trim_empty_length s :
  (0 <? String.length (trim s))%nat = false ↔ trim s = EmptyString.
Proof.
  rewrite Nat.ltb_ge. destruct (trim s); simpl; split; try done; lia.
Qed.

Lemma is_space_true c :
  is_space c = true ↔ nat_of_ascii c ∈ white_space_codes.
Proof.
  pose proof (is_space_spec c) as Hspec. unfold not_space in Hspec.
  destruct (is_space c); split; try done.
  - intros _. destruct (decide (nat_of_ascii c ∈ white_space_codes));
      [done|]. by apply Hspec in n.
  - intros Hin. by apply Hspec in Hin.
Qed.

Lemma trim_start_empty s :
  trim_start s = EmptyString
  ↔ ∀ c, c ∈ String.list_ascii_of_string s → is_space c = true.
Proof.
  induction s as [|c s IH]; simpl.
  - split; [|done]. by intros _ c ?%not_elem_of_nil.
  - destruct (is_space c) eqn:Hc.
    + rewrite IH. split.
      * intros H c' [->|?]%elem_of_cons; auto.
      * intros H c' Hc'. apply H. by right.
    + split; [done|]. intros H.
      rewrite H in Hc by left. done.
Qed.

Lemma trim_start_nonempty s :
  trim_start s ≠ EmptyString →
  ∃ c, c ∈ String.list_ascii_of_string s ∧ is_space c = false.
Proof.
  induction s as [|c s IH]; simpl; [done|].
  destruct (is_space c) eqn:Hc.
  - intros (c' & ? & ?)%IH. exists c'. split; [by right|done].
  - intros _. exists c. split; [left|done].
Qed.

Lemma trim_empty s : trim s = EmptyString ↔ trim_start s = EmptyString.
Proof.
  split; [|by unfold trim; intros ->].
  intros Htrim. pose proof (trim_start_clean s) as Hclean.
  unfold trim in Htrim. destruct (trim_start s) as [|c x]; [done|].
  simpl in Hclean, Htrim.
  rewrite (rev_string_app (String c EmptyString) x) in Htrim.
  destruct (trim_start_snoc (rev_string EmptyString x) c Hclean) as [t Ht].
  by rewrite Ht, rev_string_snoc in Htrim.
Qed.

(** The outcome of the test [v && v.trim().length > 0], stated on the
    characters of [v]. *)
Lemma blank_test s :
  if (0 <? String.length (trim s))%nat
  then ∃ c, c ∈ String.list_ascii_of_string s ∧ not_space c
  else ∀ c, c ∈ String.list_ascii_of_string s →
            nat_of_ascii c ∈ white_space_codes.
Proof.
  destruct (0 <? String.length (trim s))%nat eqn:Hlen.
  - assert (trim_start s ≠ EmptyString) as Hne.
    { intros Heq%trim_empty. rewrite Heq in Hlen. done. }
    apply trim_start_nonempty in Hne as (c & Hin & Hc).
    exists c. split; [done|]. by apply is_space_spec.
  - apply trim_empty_length, trim_empty in Hlen.
    intros c Hc. apply is_space_true.
    by apply (proj1 (trim_start_empty s)).
Qed.
End TrimFacts.

(** X12. On an ASCII argument a text setter of [Book] or [AudioBook]
    fails exactly when the argument is empty or all white space.  When
    it succeeds, the argument has a character that is not white space,
    the stored value is the argument without the white space at its two
    ends, is ASCII and not empty, every other field is untouched, and
    setting the stored value again changes nothing. *)
Theorem text_setters_store_trimmed (b : Book) (a : AudioBook) (v : string) :
  JSString.ascii_only v = true →
  match setAuthor b v with
  | inl b' =>
      (∃ c, c ∈ String.list_ascii_of_string v ∧ JSString.not_space c)
      ∧ b' = new_Book (book_id b) (book_title b) (Trim.trim v) (ISBN b)
      ∧ author b' ≠ EmptyString
      ∧ User.no_outer_space (author b')
      ∧ JSString.ascii_only (author b') = true
      ∧ setAuthor b' (author b') = inl b'
  | inr msg =>
      (∀ c, c ∈ String.list_ascii_of_string v →
            nat_of_ascii c ∈ JSString.white_space_codes)
      ∧ msg = "Author name cannot be empty"
  end
  ∧ match setISBN b v with
    | inl b' =>
        (∃ c, c ∈ String.list_ascii_of_string v ∧ JSString.not_space c)
        ∧ b' = new_Book (book_id b) (book_title b) (author b) (Trim.trim v)
        ∧ ISBN b' ≠ EmptyString
        ∧ User.no_outer_space (ISBN b')
        ∧ JSString.ascii_only (ISBN b') = true
        ∧ setISBN b' (ISBN b') = inl b'
    | inr msg =>
        (∀ c, c ∈ String.list_ascii_of_string v →
              nat_of_ascii c ∈ JSString.white_space_codes)
        ∧ msg = "ISBN cannot be empty"
    end
  ∧ match setNarrator a v with
    | inl a' =>
        (∃ c, c ∈ String.list_ascii_of_string v ∧ JSString.not_space c)
        ∧ a' = new_AudioBook (audio_id a) (audio_title a) (Trim.trim v)
                 (audio_length a)
        ∧ narrator a' ≠ EmptyString
        ∧ User.no_outer_space (narrator a')
        ∧ JSString.ascii_only (narrator a') = true
        ∧ setNarrator a' (narrator a') = inl a'
    | inr msg =>
        (∀ c, c ∈ String.list_ascii_of_string v →
              nat_of_ascii c ∈ JSString.white_space_codes)
        ∧ msg = "Narrator name cannot be empty"
    end.
Proof.
  intros Hascii. pose proof (blank_test v) as Hblank.
  unfold setAuthor, setISBN, setNarrator.
  destruct (0 <? String.length (Trim.trim v))%nat eqn:Hlen.
  - assert (Trim.trim v ≠ EmptyString) as Hne.
    { intros Heq. rewrite Heq in Hlen. done. }
    simpl. rewrite !trim_idempotent, Hlen.
    pose proof (trim_no_outer_space v) as [??].
    pose proof (ascii_only_trim v Hascii).
    by repeat split.
  - by repeat split.
Qed.

Lemma text_setters_store_trimmed_witness :
  JSString.ascii_only "  Harper Lee " = true
  ∧ match setAuthor Sample.gatsby "  Harper Lee " with
    | inl b' =>
        (∃ c, c ∈ String.list_ascii_of_string "  Harper Lee "
              ∧ JSString.not_space c)
        ∧ b' = new_Book (book_id Sample.gatsby) (book_title Sample.gatsby)
                 (Trim.trim "  Harper Lee ") (ISBN Sample.gatsby)
        ∧ author b' ≠ EmptyString
        ∧ User.no_outer_space (author b')
        ∧ JSString.ascii_only (author b') = true
        ∧ setAuthor b' (author b') = inl b'
    | inr msg =>
        (∀ c, c ∈ String.list_ascii_of_string "  Harper Lee " →
              nat_of_ascii c ∈ JSString.white_space_codes)
        ∧ msg = "Author name cannot be empty"
    end
  ∧ match setISBN Sample.gatsby "  Harper Lee " with
    | inl b' =>
        (∃ c, c ∈ String.list_ascii_of_string "  Harper Lee "
              ∧ JSString.not_space c)
        ∧ b' = new_Book (book_id Sample.gatsby) (book_title Sample.gatsby)
                 (author Sample.gatsby) (Trim.trim "  Harper Lee ")
        ∧ ISBN b' ≠ EmptyString
        ∧ User.no_outer_space (ISBN b')
        ∧ JSString.ascii_only (ISBN b') = true
        ∧ setISBN b' (ISBN b') = inl b'
    | inr msg =>
        (∀ c, c ∈ String.list_ascii_of_string "  Harper Lee " →
              nat_of_ascii c ∈ JSString.white_space_codes)
        ∧ msg = "ISBN cannot be empty"
    end
  ∧ match setNarrator Sample.dune "  Harper Lee " with
    | inl a' =>
        (∃ c, c ∈ String.list_ascii_of_string "  Harper Lee "
              ∧ JSString.not_space c)
        ∧ a' = new_AudioBook (audio_id Sample.dune) (audio_title Sample.dune)
                 (Trim.trim "  Harper Lee ") (audio_length Sample.dune)
        ∧ narrator a' ≠ EmptyString
        ∧ User.no_outer_space (narrator a')
        ∧ JSString.ascii_only (narrator a') = true
        ∧ setNarrator a' (narrator a') = inl a'
    | inr msg =>
        (∀ c, c ∈ String.list_ascii_of_string "  Harper Lee " →
              nat_of_ascii c ∈ JSString.white_space_codes)
        ∧ msg = "Narrator name cannot be empty"
    end.
Proof.
  split; [reflexivity|].
  apply (text_setters_store_trimmed Sample.gatsby Sample.dune
           "  Harper Lee "). reflexivity.
Defined.

(** X13. For a length from zero to [Number.MAX_SAFE_INTEGER] minutes,
    [formatLength] shows the hours and minutes of the length: the two
    numbers give the length back as sixty times the hours plus the
    minutes, the minutes are below sixty, and the hours are left out
    exactly when the length is under one hour. *)
Theorem formatLength_hours_minutes (a : AudioBook) :
  (0 ≤ audio_length a)%Z →
  (audio_length a ≤ MAX_SAFE_INTEGER)%Z →
  let h := (audio_length a / 60)%Z in
  let m := (audio_length a `mod` 60)%Z in
  (audio_length a = 60 * h + m)%Z
  ∧ (0 ≤ m < 60)%Z
  ∧ (0 ≤ h)%Z
  ∧ formatLength a
    = if (audio_length a <? 60)%Z
      then number_to_string m +:+ "m"
      else number_to_string h +:+ "h " +:+ number_to_string m +:+ "m".
Proof.
  intros Hpos _ h m. subst h m.
  pose proof (Z.div_mod (audio_length a) 60 ltac:(lia)) as Hdm.
  pose proof (Z.mod_pos_bound (audio_length a) 60 ltac:(lia)) as Hm.
  split; [lia|]. split; [lia|]. split; [apply Z.div_pos; lia|].
  unfold formatLength. rewrite Z.rem_mod_nonneg by lia.
  destruct (Z.ltb_spec (audio_length a) 60) as [Hlt|Hge].
  - rewrite Z.div_small by lia. done.
  - assert ((audio_length a / 60 >? 0)%Z = true) as ->; [|done].
    apply Z.gtb_lt. apply Z.div_str_pos. lia.
Qed.

Lemma formatLength_hours_minutes_witness :
  (0 ≤ audio_length SampleUser.nineteen84_audio)%Z
  ∧ (audio_length SampleUser.nineteen84_audio ≤ MAX_SAFE_INTEGER)%Z
  ∧ let h := (audio_length SampleUser.nineteen84_audio / 60)%Z in
    let m := (audio_length SampleUser.nineteen84_audio `mod` 60)%Z in
    (audio_length SampleUser.nineteen84_audio = 60 * h + m)%Z
    ∧ (0 ≤ m < 60)%Z
    ∧ (0 ≤ h)%Z
    ∧ formatLength SampleUser.nineteen84_audio
      = if (audio_length SampleUser.nineteen84_audio <? 60)%Z
        then number_to_string m +:+ "m"
        else number_to_string h +:+ "h " +:+ number_to_string m +:+ "m".
Proof.
  split; [vm_compute; discriminate|]. split; [vm_compute; discriminate|].
  apply (formatLength_hours_minutes SampleUser.nineteen84_audio);
    vm_compute; discriminate.
Defined.

(** X14. The constructor of [AudioBook] takes any length.  For a
    negative length [formatLength] never shows hours: it shows only the
    remainder of the length by sixty, a number from -59 to 0, so lengths
    that differ by a multiple of an hour are shown alike. *)
Theorem formatLength_negative (a : AudioBook) :
  (audio_length a < 0)%Z →
  formatLength a = number_to_string (Z.rem (audio_length a) 60) +:+ "m"
  ∧ (-60 < Z.rem (audio_length a) 60 ≤ 0)%Z
  ∧ formatLength
      (new_AudioBook (audio_id a) (audio_title a) (narrator a)
         (audio_length a - 60))
    = formatLength a.
Proof.
  intros Hneg.
  assert (∀ n, (n < 0)%Z → (n / 60 >? 0)%Z = false) as Hdiv.
  { intros n Hn. rewrite Z.gtb_ltb. apply Z.ltb_ge.
    assert (n / 60 < 0)%Z by (apply Z.div_lt_upper_bound; lia). lia. }
  pose proof (Z.rem_bound_pos_neg (audio_length a) 60 ltac:(lia) ltac:(lia)).
  unfold formatLength. simpl. rewrite !Hdiv by lia.
  split; [done|]. split; [lia|].
  do 2 f_equal.
  replace (audio_length a - 60)%Z with (audio_length a + (-1) * 60)%Z by lia.
  rewrite Z.rem_add; [done|lia|]. nia.
Qed.

Lemma formatLength_negative_witness :
  (audio_length (new_AudioBook 999 "Test" "Test Narrator" (-130)) < 0)%Z
  ∧ formatLength (new_AudioBook 999 "Test" "Test Narrator" (-130))
    = number_to_string (Z.rem (-130) 60) +:+ "m"
  ∧ (-60 < Z.rem (-130) 60 ≤ 0)%Z
  ∧ formatLength (new_AudioBook 999 "Test" "Test Narrator" (-130 - 60))
    = formatLength (new_AudioBook 999 "Test" "Test Narrator" (-130)).
Proof.
  split; [reflexivity|].
  apply (formatLength_negative
           (new_AudioBook 999 "Test" "Test Narrator" (-130))).
  reflexivity.
Defined.

(** X15. [isLongAudioBook] holds exactly when the length is more than
    eight hours: more than eight full hours, or eight hours and at least
    one minute.  No length that [setLength] rejects is long. *)
Theorem isLongAudioBook_more_than_eight_hours (a : AudioBook) :
  (isLongAudioBook a = true
   ↔ (8 < audio_length a / 60)%Z
     ∨ ((audio_length a / 60 = 8)%Z ∧ (0 < Z.rem (audio_length a) 60)%Z))
  ∧ match setLength a (audio_length a) with
    | inl a' => a' = a
    | inr _ => isLongAudioBook a = false
    end.
Proof.
  unfold isLongAudioBook, setLength. split.
  - rewrite Z.gtb_lt.
    destruct (Z.le_gt_cases 0 (audio_length a)) as [Hpos|Hneg].
    + rewrite Z.rem_mod_nonneg by lia.
      pose proof (Z.div_mod (audio_length a) 60 ltac:(lia)).
      pose proof (Z.mod_pos_bound (audio_length a) 60 ltac:(lia)). lia.
    + assert (audio_length a / 60 < 0)%Z
        by (apply Z.div_lt_upper_bound; lia).
      lia.
  - destruct (Z.ltb_spec 0 (audio_length a)) as [Hpos|Hle].
    + by destruct a.
    + rewrite Z.gtb_ltb. apply Z.ltb_ge. lia.
Qed.

(* ================================================================== *)
(** * Further guarantees: the catalogue *)

Section MoreCatalogueFacts.
Import LibraryCatalogue.
Implicit Types (s : Store) (this a : loc) (items : list LibraryItem).

(** [removeItem] at a known first match. *)
Lemma removeItem_at s this before x after id :
  catalogue_items s this = Some (before ++ x :: after) →
  getId x = id → Forall (λ y, getId y ≠ id) before →
  ∃ s', removeItem this id s = Ok true s'
        ∧ catalogue_items s' this = Some (before ++ after)
        ∧ console s'
          = console s ++
              [getItemType x +:+ " " +:+ JSString.dquote +:+ getTitle x
               +:+ JSString.dquote
               +:+ " has been removed from the catalogue."].
Proof.
  intros (a & Ht & Ha)%catalogue_items_Some Hx Hb.
  eexists. split; [by eapply removeItem_run_found|].
  split; [by eapply catalogue_items_write|done].
Qed.

Lemma addItem_console s this items item :
  catalogue_items s this = Some items →
  ∃ s', addItem this item s = Ok tt s'
        ∧ catalogue_items s' this = Some (items ++ [item])
        ∧ console s'
          = console s ++
              [getItemType item +:+ " " +:+ JSString.dquote
               +:+ getTitle item +:+ JSString.dquote
               +:+ " has been added to the catalogue."].
Proof.
  intros (a & Ht & Ha)%catalogue_items_Some.
  eexists. split; [by eapply addItem_run|].
  split; [by eapply catalogue_items_write|done].
Qed.

Lemma count_of_id_app id items1 items2 :
  count_of_id id (items1 ++ items2)
  = count_of_id id items1 + count_of_id id items2.
Proof. unfold count_of_id. by rewrite filter_app, length_app. Qed.

Lemma count_of_id_none id items :
  Forall (λ y, getId y ≠ id) items → count_of_id id items = 0.
Proof.
  unfold count_of_id. induction 1 as [|y items Hy _ IH]; [done|].
  by rewrite filter_cons_False.
Qed.

Lemma other_ids_none id items :
  Forall (λ y, getId y ≠ id) items →
  base.filter (λ y, getId y ≠ id) items = items.
Proof.
  induction 1 as [|y items Hy _ IH]; [done|].
  by rewrite filter_cons_True, IH.
Qed.

Lemma find_push {A} (p : A → bool) (arr : list A) (x : A) :
  JSArray.find p (arr ++ [x])
  = match JSArray.find p arr with
    | Some y => Some y
    | None => if p x then Some x else None
    end.
Proof.
  induction arr as [|y arr IH]; simpl; [done|]. by destruct (p y).
Qed.

Lemma type_partition items :
  length (base.filter (λ item, getItemType item = "Book") items)
  + length (base.filter (λ item, getItemType item = "AudioBook") items)
  = length items.
Proof.
  induction items as [|[b|a] items IH]; [done|..].
  - rewrite filter_cons_True, filter_cons_False by done. simpl. lia.
  - rewrite filter_cons_False, filter_cons_True by done. simpl. lia.
Qed.

Lemma type_other items (t : string) :
  t ≠ "Book" → t ≠ "AudioBook" →
  base.filter (λ item, getItemType item = t) items = [].
Proof.
  intros Hb Ha. induction items as [|[b|a] items IH]; [done|..];
    by rewrite filter_cons_False.
Qed.

Lemma findItemsByType_ok s this items (t : string) :
  catalogue_items s this = Some items →
  ∃ r s',
    findItemsByType this t s = Ok r s'
    ∧ array_elems s' r
      = Some (base.filter (λ item, getItemType item = t) items)
    ∧ catalogue_items s' this = Some items
    ∧ heap s !! r = None
    ∧ s' = mkStore
             (<[r := ArrayObj
                       (base.filter (λ item, getItemType item = t) items)]>
                (heap s))
             (instance s) (console s).
Proof.
  intros Hitems.
  pose proof Hitems as (a & Ht & Ha)%catalogue_items_Some.
  exists (fresh (dom (heap s))). eexists.
  split; [by eapply findItemsByType_run|].
  rewrite (filter_stdpp _ (λ item, getItemType item = t))
    by (intros x; apply String.eqb_eq).
  split. { unfold array_elems. simpl. by rewrite lookup_insert_eq. }
  split. { apply catalogue_items_fresh; [done|apply fresh_lookup]. }
  split; [apply fresh_lookup|done].
Qed.

Lemma run_ops_console this (ops : list Op) :
  ∀ s items,
    catalogue_items s this = Some items →
    ∃ bs s' lines,
      run_ops this ops s = Ok bs s'
      ∧ console s' = console s ++ lines
      ∧ length lines = count_adds ops + count_true bs.
Proof.
  induction ops as [|[item|id] ops IH]; intros s items Hitems; simpl.
  - exists [], s, []. by rewrite app_nil_r.
  - destruct (addItem_console s this items item Hitems)
      as (s1 & Hrun & H1 & Hc1).
    destruct (IH s1 _ H1) as (bs & s' & lines & Hops & Hc & Hlen).
    exists bs, s'. eexists (_ :: lines). unfold bind. rewrite Hrun, Hops.
    split; [done|]. rewrite Hc, Hc1, <-app_assoc. split; [done|].
    simpl. by rewrite Hlen.
  - destruct (removeItem_ok s this items id Hitems)
      as [(before & x & after & s0 & Heq & Hx & Hb & _)|[_ Hrun]].
    + rewrite Heq in Hitems.
      destruct (removeItem_at s this before x after id Hitems Hx Hb)
        as (s1 & Hrun & H1 & Hc1).
      destruct (IH s1 _ H1) as (bs & s' & lines & Hops & Hc & Hlen).
      exists (true :: bs), s'. eexists (_ :: lines). unfold bind, ret.
      rewrite Hrun, Hops.
      split; [done|]. rewrite Hc, Hc1, <-app_assoc. split; [done|].
      simpl. rewrite Hlen. lia.
    + destruct (IH s _ Hitems) as (bs & s' & lines & Hops & Hc & Hlen).
      exists (false :: bs), s', lines. unfold bind, ret.
      by rewrite Hrun, Hops.
Qed.
End MoreCatalogueFacts.

(** X1. Adding an item whose id no catalogue item has, and then removing
    by that id, gives back the items the catalogue had: [removeItem]
    returns [true] and the sequence is as before the [addItem]. *)
Theorem addItem_then_removeItem
    (s : Store) (this : loc) (items : list LibraryItem) (item : LibraryItem) :
  catalogue_items s this = Some items →
  Forall (λ y, getId y ≠ getId item) items →
  ∃ s1 s2,
    LibraryCatalogue.addItem this item s = Ok tt s1
    ∧ LibraryCatalogue.removeItem this (getId item) s1 = Ok true s2
    ∧ catalogue_items s2 this = Some items.
Proof.
  intros Hitems Hfresh.
  destruct (addItem_ok s this items item Hitems) as (s1 & Hadd & H1 & _).
  destruct (removeItem_at s1 this items item [] (getId item) H1 eq_refl Hfresh)
    as (s2 & Hrem & H2 & _).
  exists s1, s2. rewrite app_nil_r in H2. done.
Qed.

Lemma addItem_then_removeItem_witness :
  catalogue_items Sample.store Sample.catalogue = Some Sample.items
  ∧ Forall (λ y, getId y ≠ getId (ItemAudioBook SampleUser.nineteen84_audio))
      Sample.items
  ∧ ∃ s1 s2,
      LibraryCatalogue.addItem Sample.catalogue
        (ItemAudioBook SampleUser.nineteen84_audio) Sample.store = Ok tt s1
      ∧ LibraryCatalogue.removeItem Sample.catalogue
          (getId (ItemAudioBook SampleUser.nineteen84_audio)) s1 = Ok true s2
      ∧ catalogue_items s2 Sample.catalogue = Some Sample.items.
Proof.
  assert (Forall
            (λ y, getId y ≠ getId (ItemAudioBook SampleUser.nineteen84_audio))
            Sample.items) as Hfresh by (repeat constructor; discriminate).
  split; [vm_compute; reflexivity|]. split; [exact Hfresh|].
  apply (addItem_then_removeItem Sample.store Sample.catalogue Sample.items
           (ItemAudioBook SampleUser.nineteen84_audio));
    [vm_compute; reflexivity|exact Hfresh].
Defined.

(** X2. Ids are not kept unique, and [removeItem] takes the earliest
    match: when an item with the same id is already in the catalogue,
    adding an item and then removing by its id deletes the older item and
    leaves the one just added at the end. *)
Theorem removeItem_takes_older_duplicate
    (s : Store) (this : loc) (before after : list LibraryItem)
    (x item : LibraryItem) :
  catalogue_items s this = Some (before ++ x :: after) →
  getId x = getId item →
  Forall (λ y, getId y ≠ getId item) before →
  ∃ s1 s2,
    LibraryCatalogue.addItem this item s = Ok tt s1
    ∧ LibraryCatalogue.removeItem this (getId item) s1 = Ok true s2
    ∧ catalogue_items s2 this = Some (before ++ after ++ [item]).
Proof.
  intros Hitems Hx Hb.
  destruct (addItem_ok s this _ item Hitems) as (s1 & Hadd & H1 & _).
  rewrite <-app_assoc in H1. simpl in H1.
  destruct (removeItem_at s1 this before x (after ++ [item]) (getId item)
              H1 Hx Hb) as (s2 & Hrem & H2 & _).
  by exists s1, s2.
Qed.

Lemma removeItem_takes_older_duplicate_witness :
  catalogue_items Sample.store Sample.catalogue
  = Some ([ItemBook Sample.gatsby] ++ ItemBook Sample.nineteen84
            :: [ItemAudioBook Sample.dune])
  ∧ getId (ItemBook Sample.nineteen84)
    = getId (ItemAudioBook (new_AudioBook 2 "1984" "Simon Prebble" 720))
  ∧ Forall
      (λ y, getId y
            ≠ getId (ItemAudioBook (new_AudioBook 2 "1984" "Simon Prebble"
                                      720)))
      [ItemBook Sample.gatsby]
  ∧ ∃ s1 s2,
      LibraryCatalogue.addItem Sample.catalogue
        (ItemAudioBook (new_AudioBook 2 "1984" "Simon Prebble" 720))
        Sample.store = Ok tt s1
      ∧ LibraryCatalogue.removeItem Sample.catalogue
          (getId (ItemAudioBook (new_AudioBook 2 "1984" "Simon Prebble" 720)))
          s1 = Ok true s2
      ∧ catalogue_items s2 Sample.catalogue
        = Some ([ItemBook Sample.gatsby] ++ [ItemAudioBook Sample.dune]
                ++ [ItemAudioBook (new_AudioBook 2 "1984" "Simon Prebble"
                                     720)]).
Proof.
  assert (Forall
            (λ y, getId y
                  ≠ getId (ItemAudioBook
                             (new_AudioBook 2 "1984" "Simon Prebble" 720)))
            [ItemBook Sample.gatsby]) as Hb
    by (repeat constructor; discriminate).
  split; [vm_compute; reflexivity|]. split; [reflexivity|].
  split; [exact Hb|].
  apply (removeItem_takes_older_duplicate Sample.store Sample.catalogue
           [ItemBook Sample.gatsby] [ItemAudioBook Sample.dune]
           (ItemBook Sample.nineteen84)
           (ItemAudioBook (new_AudioBook 2 "1984" "Simon Prebble" 720)));
    [vm_compute; reflexivity|reflexivity|exact Hb].
Defined.

(** X3. [removeItem(id)] returns [true] exactly when some item has the
    id.  It then lowers the number of items with that id by one and
    leaves the items with other ids as they were, in their order; so a
    catalogue holding an id several times needs as many calls to be rid
    of it. *)
Theorem removeItem_one_per_call
    (s : Store) (this : loc) (items : list LibraryItem) (id : Z) :
  catalogue_items s this = Some items →
  ∃ b s' items',
    LibraryCatalogue.removeItem this id s = Ok b s'
    ∧ catalogue_items s' this = Some items'
    ∧ b = bool_decide (count_of_id id items ≠ 0)
    ∧ count_of_id id items' = count_of_id id items - (if b then 1 else 0)
    ∧ base.filter (λ y, getId y ≠ id) items'
      = base.filter (λ y, getId y ≠ id) items.
Proof.
  intros Hitems.
  destruct (removeItem_ok s this items id Hitems)
    as [(before & x & after & s' & Heq & Hx & Hb & Hrun & H' & _)
       |[Hall Hrun]].
  - exists true, s', (before ++ after). split; [done|]. split; [done|].
    assert (count_of_id id (x :: after) = S (count_of_id id after)) as Hc.
    { unfold count_of_id. by rewrite filter_cons_True. }
    rewrite Heq, !count_of_id_app, Hc. split; [|split].
    + symmetry. apply bool_decide_eq_true_2. lia.
    + lia.
    + by rewrite !filter_app, filter_cons_False by (intros H; by apply H).
  - exists false, s, items. split; [done|]. split; [done|].
    rewrite count_of_id_none by done. split; [|done].
    symmetry. apply bool_decide_eq_false_2. by intros H.
Qed.

Lemma removeItem_one_per_call_witness :
  catalogue_items Sample.store Sample.catalogue = Some Sample.items
  ∧ ∃ b s' items',
      LibraryCatalogue.removeItem Sample.catalogue 3 Sample.store = Ok b s'
      ∧ catalogue_items s' Sample.catalogue = Some items'
      ∧ b = bool_decide (count_of_id 3 Sample.items ≠ 0)
      ∧ count_of_id 3 items'
        = count_of_id 3 Sample.items - (if b then 1 else 0)
      ∧ base.filter (λ y, getId y ≠ 3%Z) items'
        = base.filter (λ y, getId y ≠ 3%Z) Sample.items.
Proof.
  split; [vm_compute; reflexivity|].
  apply (removeItem_one_per_call Sample.store Sample.catalogue Sample.items).
  vm_compute; reflexivity.
Defined.

(** X4. On ASCII titles, a title lookup keeps its answer when an item
    is added: an item found before is found again, even if the new item
    has the same title, which then cannot be reached by title; and when
    nothing was found before, the new item is found exactly if its title
    matches. *)
Theorem findItemByTitle_after_addItem
    (s : Store) (this : loc) (items : list LibraryItem)
    (title : string) (item : LibraryItem) (found : option LibraryItem) :
  catalogue_items s this = Some items →
  JSString.ascii_only title = true →
  Forall (λ y, JSString.ascii_only (getTitle y) = true) (items ++ [item]) →
  LibraryCatalogue.findItemByTitle this title s = Ok found s →
  ∃ s1 found1,
    LibraryCatalogue.addItem this item s = Ok tt s1
    ∧ LibraryCatalogue.findItemByTitle this title s1 = Ok found1 s1
    ∧ match found with
      | Some x => found1 = Some x
      | None =>
          (found1 = Some item
           ∧ JSString.eq_ignore_case (getTitle item) title)
          ∨ (found1 = None
             ∧ ¬ JSString.eq_ignore_case (getTitle item) title)
      end.
Proof.
  intros Hitems _ _ Hfind.
  pose proof Hitems as (a & Ht & Ha)%catalogue_items_Some.
  rewrite (findItemByTitle_run s this a items Ht Ha) in Hfind.
  injection Hfind as Hfind.
  destruct (addItem_ok s this items item Hitems) as (s1 & Hadd & H1 & _).
  pose proof H1 as (a1 & Ht1 & Ha1)%catalogue_items_Some.
  exists s1. eexists. split; [done|].
  split; [by eapply findItemByTitle_run|].
  rewrite find_push, Hfind. destruct found as [x|]; [done|].
  destruct (String.eqb _ _) eqn:Htest.
  - left. split; [done|]. by apply title_test_true.
  - right. split; [done|]. by apply title_test_false.
Qed.

Lemma findItemByTitle_after_addItem_witness :
  catalogue_items Sample.store Sample.catalogue = Some Sample.items
  ∧ JSString.ascii_only "1984" = true
  ∧ Forall (λ y, JSString.ascii_only (getTitle y) = true)
      (Sample.items ++ [ItemAudioBook SampleUser.nineteen84_audio])
  ∧ LibraryCatalogue.findItemByTitle Sample.catalogue "1984" Sample.store
    = Ok (Some (ItemBook Sample.nineteen84)) Sample.store
  ∧ ∃ s1 found1,
      LibraryCatalogue.addItem Sample.catalogue
        (ItemAudioBook SampleUser.nineteen84_audio) Sample.store = Ok tt s1
      ∧ LibraryCatalogue.findItemByTitle Sample.catalogue "1984" s1
        = Ok found1 s1
      ∧ found1 = Some (ItemBook Sample.nineteen84).
Proof.
  assert (Forall (λ y, JSString.ascii_only (getTitle y) = true)
            (Sample.items ++ [ItemAudioBook SampleUser.nineteen84_audio]))
    as Hascii by (repeat constructor).
  split; [vm_compute; reflexivity|]. split; [reflexivity|].
  split; [exact Hascii|]. split; [vm_compute; reflexivity|].
  apply (findItemByTitle_after_addItem Sample.store Sample.catalogue
           Sample.items "1984" (ItemAudioBook SampleUser.nineteen84_audio)
           (Some (ItemBook Sample.nineteen84)));
    [vm_compute; reflexivity|reflexivity|exact Hascii
    |vm_compute; reflexivity].
Defined.

(** X5. [getStatistics] and [findItemsByType] agree: the count stored
    under a type is the length of the array [findItemsByType] returns for
    that type, and the type has no entry exactly when that array is
    empty. *)
Theorem getStatistics_matches_findItemsByType
    (s : Store) (this : loc) (items : list LibraryItem) (itemType : string) :
  catalogue_items s this = Some items →
  ∃ stats r s' result,
    LibraryCatalogue.getStatistics this s = Ok stats s
    ∧ LibraryCatalogue.findItemsByType this itemType s = Ok r s'
    ∧ array_elems s' r = Some result
    ∧ byType stats !! itemType
      = match result with
        | [] => None
        | _ :: _ => Some (length result)
        end.
Proof.
  intros Hitems.
  pose proof Hitems as (a & Ht & Ha)%catalogue_items_Some.
  destruct (findItemsByType_ok s this items itemType Hitems)
    as (r & s' & Hrun & Hres & _).
  eexists _, r, s', _. split; [by eapply getStatistics_run|].
  split; [done|]. split; [done|].
  rewrite tally_total. simpl. rewrite tally_lookup, lookup_empty.
  unfold count_of_type. simpl.
  by destruct (base.filter _ items).
Qed.

Lemma getStatistics_matches_findItemsByType_witness :
  catalogue_items Sample.store Sample.catalogue = Some Sample.items
  ∧ ∃ stats r s' result,
      LibraryCatalogue.getStatistics Sample.catalogue Sample.store
      = Ok stats Sample.store
      ∧ LibraryCatalogue.findItemsByType Sample.catalogue "Book" Sample.store
        = Ok r s'
      ∧ array_elems s' r = Some result
      ∧ byType stats !! "Book"
        = match result with
          | [] => None
          | _ :: _ => Some (length result)
          end.
Proof.
  split; [vm_compute; reflexivity|].
  apply (getStatistics_matches_findItemsByType Sample.store Sample.catalogue
           Sample.items "Book").
  vm_compute; reflexivity.
Defined.

(** X6. The two discriminators divide the catalogue: the arrays returned
    for ["Book"] and for ["AudioBook"] together have as many items as
    the catalogue, and the array returned for any other string is
    empty. *)
Theorem findItemsByType_partition
    (s : Store) (this : loc) (items : list LibraryItem) (other : string) :
  catalogue_items s this = Some items →
  other ≠ "Book" → other ≠ "AudioBook" →
  ∃ r1 s1 books r2 s2 audioBooks r3 s3,
    LibraryCatalogue.findItemsByType this "Book" s = Ok r1 s1
    ∧ array_elems s1 r1 = Some books
    ∧ LibraryCatalogue.findItemsByType this "AudioBook" s = Ok r2 s2
    ∧ array_elems s2 r2 = Some audioBooks
    ∧ length books + length audioBooks = length items
    ∧ LibraryCatalogue.findItemsByType this other s = Ok r3 s3
    ∧ array_elems s3 r3 = Some [].
Proof.
  intros Hitems Hb Ha.
  destruct (findItemsByType_ok s this items "Book" Hitems)
    as (r1 & s1 & Hrun1 & Hres1 & _).
  destruct (findItemsByType_ok s this items "AudioBook" Hitems)
    as (r2 & s2 & Hrun2 & Hres2 & _).
  destruct (findItemsByType_ok s this items other Hitems)
    as (r3 & s3 & Hrun3 & Hres3 & _).
  rewrite type_other in Hres3 by done.
  eexists r1, s1, _, r2, s2, _, r3, s3.
  split; [done|]. split; [done|]. split; [done|]. split; [done|].
  split; [apply type_partition|done].
Qed.

Lemma findItemsByType_partition_witness :
  catalogue_items Sample.store Sample.catalogue = Some Sample.items
  ∧ "book" ≠ "Book" ∧ "book" ≠ "AudioBook"
  ∧ ∃ r1 s1 books r2 s2 audioBooks r3 s3,
      LibraryCatalogue.findItemsByType Sample.catalogue "Book" Sample.store
      = Ok r1 s1
      ∧ array_elems s1 r1 = Some books
      ∧ LibraryCatalogue.findItemsByType Sample.catalogue "AudioBook"
          Sample.store = Ok r2 s2
      ∧ array_elems s2 r2 = Some audioBooks
      ∧ length books + length audioBooks = length Sample.items
      ∧ LibraryCatalogue.findItemsByType Sample.catalogue "book"
          Sample.store = Ok r3 s3
      ∧ array_elems s3 r3 = Some [].
Proof.
  split; [vm_compute; reflexivity|].
  split; [discriminate|]. split; [discriminate|].
  apply (findItemsByType_partition Sample.store Sample.catalogue
           Sample.items "book");
    [vm_compute; reflexivity|discriminate..].
Defined.

(** X7. The console follows the catalogue: a run of [addItem] and
    [removeItem] calls only appends to the console, one line for each
    [addItem] and one for each [removeItem] that returned [true]; a
    [removeItem] that finds nothing writes nothing. *)
Theorem run_ops_console_lines
    (s : Store) (this : loc) (items : list LibraryItem) (ops : list Op) :
  catalogue_items s this = Some items →
  ∃ bs s' lines,
    run_ops this ops s = Ok bs s'
    ∧ console s' = console s ++ lines
    ∧ length lines = count_adds ops + count_true bs.
Proof. intros Hitems. by eapply run_ops_console. Qed.

Lemma run_ops_console_lines_witness :
  catalogue_items Sample.store Sample.catalogue = Some Sample.items
  ∧ ∃ bs s' lines,
      run_ops Sample.catalogue
        [OpRemove 7; OpAdd Sample.gatsby; OpRemove 1] Sample.store
      = Ok bs s'
      ∧ console s' = console Sample.store ++ lines
      ∧ length lines
        = count_adds [OpRemove 7; OpAdd Sample.gatsby; OpRemove 1]
          + count_true bs.
Proof.
  split; [vm_compute; reflexivity|].
  apply (run_ops_console_lines Sample.store Sample.catalogue Sample.items).
  vm_compute; reflexivity.
Defined.

(** X9. The array [findItemsByType] returns is a new one: whatever a
    caller puts into it, the catalogue keeps its items. *)
Theorem findItemsByType_returns_new_array
    (s : Store) (this : loc) (items : list LibraryItem) (itemType : string) :
  catalogue_items s this = Some items →
  ∃ r s',
    LibraryCatalogue.findItemsByType this itemType s = Ok r s'
    ∧ ∀ mutated, ∃ s'',
        write_array r mutated s' = Ok tt s''
        ∧ array_elems s'' r = Some mutated
        ∧ catalogue_items s'' this = Some items.
Proof.
  intros Hitems.
  destruct (findItemsByType_ok s this items itemType Hitems)
    as (r & s' & Hrun & Hres & Hitems' & Hfresh & Hs').
  exists r, s'. split; [done|]. intros mutated.
  unfold write_array. rewrite Hs'. cbn [heap instance console].
  rewrite lookup_insert_eq. eexists. split; [done|]. split.
  - unfold array_elems. simpl. by rewrite lookup_insert_eq.
  - rewrite insert_insert_eq. by apply catalogue_items_fresh.
Qed.

Lemma findItemsByType_returns_new_array_witness :
  catalogue_items Sample.store Sample.catalogue = Some Sample.items
  ∧ ∃ r s',
      LibraryCatalogue.findItemsByType Sample.catalogue "Book" Sample.store
      = Ok r s'
      ∧ ∀ mutated, ∃ s'',
          write_array r mutated s' = Ok tt s''
          ∧ array_elems s'' r = Some mutated
          ∧ catalogue_items s'' Sample.catalogue = Some Sample.items.
Proof.
  split; [vm_compute; reflexivity|].
  apply (findItemsByType_returns_new_array Sample.store Sample.catalogue
           Sample.items "Book").
  vm_compute; reflexivity.
Defined.

(** ** The listing *)

Section ListingFacts.
Implicit Types (s : Store) (k i : nat) (arr : list LibraryItem).

Lemma display_run (item : LibraryItem) s :
  display item s
  = Ok tt (mkStore (heap s) (instance s) (console s ++ display_lines item)).
Proof.
  destruct item; unfold display, bind, console_log; simpl;
    by rewrite <-!app_assoc.
Qed.

Lemma forEach_listing arr :
  ∀ k s,
    forEach_from k
      (λ item index,
         do _ <- console_log ("Item "
                              +:+ number_to_string (Z.of_nat (index + 1))
                              +:+ ":");
         display item) arr s
    = Ok tt (mkStore (heap s) (instance s)
               (console s ++ listing_lines k arr)).
Proof.
  induction arr as [|item arr IH]; intros k s; simpl.
  - unfold ret. rewrite app_nil_r. by destruct s.
  - unfold bind at 1. unfold bind at 1. unfold console_log at 1.
    rewrite display_run. cbn [heap instance console].
    rewrite IH. cbn [heap instance console].
    by rewrite <-!app_assoc.
Qed.

Lemma display_lines_length (item : LibraryItem) :
  length (display_lines item) = 5.
Proof. by destruct item. Qed.

Lemma listing_lines_length k arr :
  length (listing_lines k arr) = 6 * length arr.
Proof.
  revert k. induction arr as [|item arr IH]; intros k; simpl; [done|].
  rewrite length_app, display_lines_length, IH. lia.
Qed.

Lemma listing_lines_block arr :
  ∀ k i item,
    arr !! i = Some item →
    listing_lines k arr !! (6 * i)
    = Some ("Item " +:+ number_to_string (Z.of_nat (k + i + 1)) +:+ ":")
    ∧ take 5 (drop (6 * i + 1) (listing_lines k arr)) = display_lines item.
Proof.
  induction arr as [|x arr IH]; intros k [|i] item Hi; simplify_eq/=.
  - rewrite Nat.add_0_r. split; [done|]. rewrite drop_0.
    rewrite take_app_length'; [done|]. by rewrite display_lines_length.
  - destruct (IH (S k) i item Hi) as [Hhead Hblock].
    remember (i + (i + (i + (i + (i + (i + 0)))))) as n eqn:Hn.
    replace (i + S (i + S (i + S (i + S (i + S (i + 0))))))
      with (5 + n) by lia.
    replace (k + S i + 1) with (S k + i + 1) by lia.
    split.
    + rewrite lookup_app_r by (rewrite display_lines_length; lia).
      rewrite display_lines_length.
      by replace (5 + n - 5) with n by lia.
    + rewrite drop_app_ge by (rewrite display_lines_length; lia).
      rewrite display_lines_length.
      by replace (5 + n + 1 - 5) with (n + 1) by lia.
Qed.
End ListingFacts.

(** X8. [displayItems] only writes to the console: objects and the
    static instance stay as they are.  For an empty catalogue it writes
    the single line saying so.  Otherwise it writes three header lines
    and, for the item at index [i], the line ["Item i+1:"] followed by the
    five lines of that item's [display()], six lines an item, in
    catalogue order. *)
Theorem displayItems_listing
    (s : Store) (this : loc) (items : list LibraryItem) :
  catalogue_items s this = Some items →
  ∃ lines,
    displayItems this s
    = Ok tt (mkStore (heap s) (instance s) (console s ++ lines))
    ∧ match items with
      | [] => lines = ["The library catalogue is empty."]
      | _ :: _ =>
          length lines = 3 + 6 * length items
          ∧ take 3 lines
            = ["=== LIBRARY CATALOGUE ===";
               "Total items: "
                 +:+ number_to_string (Z.of_nat (length items));
               EmptyString]
      end
    ∧ ∀ i item,
        items !! i = Some item →
        lines !! (3 + 6 * i)
        = Some ("Item " +:+ number_to_string (Z.of_nat (i + 1)) +:+ ":")
        ∧ take 5 (drop (4 + 6 * i) lines) = display_lines item.
Proof.
  intros (a & Ht & Ha)%catalogue_items_Some.
  unfold displayItems, bind, get_libraryItems, read_array.
  rewrite Ht, Ha. destruct items as [|x items].
  - eexists. split; [done|]. split; [done|]. by intros i item Hi.
  - cbn [length Nat.eqb]. unfold console_log at 1 2 3.
    cbn [heap instance console]. rewrite forEach_listing.
    cbn [heap instance console]. rewrite <-!app_assoc.
    eexists. split; [done|]. split; [split|].
    + simpl. rewrite length_app, display_lines_length, listing_lines_length.
      lia.
    + done.
    + intros i item Hi.
      destruct (listing_lines_block (x :: items) 0 i item Hi)
        as [Hhead Hblock].
      split.
      * by replace (3 + 6 * i) with (S (S (S (6 * i)))) by lia.
      * by replace (4 + 6 * i) with (S (S (S (6 * i + 1)))) by lia.
Qed.

Lemma displayItems_listing_witness :
  catalogue_items Sample.store Sample.catalogue = Some Sample.items
  ∧ ∃ lines,
      displayItems Sample.catalogue Sample.store
      = Ok tt (mkStore (heap Sample.store) (instance Sample.store)
                 (console Sample.store ++ lines))
      ∧ match Sample.items with
        | [] => lines = ["The library catalogue is empty."]
        | _ :: _ =>
            length lines = 3 + 6 * length Sample.items
            ∧ take 3 lines
              = ["=== LIBRARY CATALOGUE ===";
                 "Total items: "
                   +:+ number_to_string (Z.of_nat (length Sample.items));
                 EmptyString]
        end
      ∧ ∀ i item,
          Sample.items !! i = Some item →
          lines !! (3 + 6 * i)
          = Some ("Item " +:+ number_to_string (Z.of_nat (i + 1)) +:+ ":")
          ∧ take 5 (drop (4 + 6 * i) lines) = display_lines item.
Proof.
  split; [vm_compute; reflexivity|].
  apply (displayItems_listing Sample.store Sample.catalogue Sample.items).
  vm_compute; reflexivity.
Defined.

(** ** The first version of the catalogue *)

Lemma V1_new_ok (s : Store) :
  ∃ c a s',
    LibraryCatalogueV1.new s = Ok c s'
    ∧ heap s !! c = None ∧ heap s !! a = None ∧ c ≠ a
    ∧ s' = mkStore (<[c := CatalogueObj a]> (<[a := ArrayObj []]> (heap s)))
             (instance s) (console s).
Proof.
  set (a := fresh (dom (heap s))).
  set (c := fresh (dom (<[a := ArrayObj []]> (heap s)))).
  assert (heap s !! a = None) as Ha by apply fresh_lookup.
  assert (<[a := ArrayObj []]> (heap s) !! c = None) as Hc
    by apply not_elem_of_dom, is_fresh.
  assert (c ≠ a) as Hca.
  { intros Heq. rewrite Heq, lookup_insert_eq in Hc. done. }
  rewrite lookup_insert_ne in Hc by done.
  by exists c, a, (mkStore (<[c := CatalogueObj a]>
                         (<[a := ArrayObj []]> (heap s)))
                      (instance s) (console s)).
Qed.

(** X10. The first version of the class has a public constructor, and
    the catalogues it constructs are separate: two calls give two
    different catalogues, both empty, and a book added to the first is
    counted by the first and not by the second. *)
Theorem V1_catalogues_are_separate (s : Store) (book : Book) :
  ∃ c1 s1 c2 s2 s3,
    LibraryCatalogueV1.new s = Ok c1 s1
    ∧ LibraryCatalogueV1.new s1 = Ok c2 s2
    ∧ c1 ≠ c2
    ∧ catalogue_items s2 c1 = Some []
    ∧ catalogue_items s2 c2 = Some []
    ∧ LibraryCatalogueV1.addItem c1 book s2 = Ok tt s3
    ∧ LibraryCatalogueV1.getBookCount c1 s3 = Ok 1 s3
    ∧ LibraryCatalogueV1.getBookCount c2 s3 = Ok 0 s3.
Proof.
  destruct (V1_new_ok s) as (c1 & a1 & s1 & Hnew1 & Hc1 & Ha1 & Hca1 & Hs1).
  destruct (V1_new_ok s1) as (c2 & a2 & s2 & Hnew2 & Hc2 & Ha2 & Hca2 & Hs2).
  assert (heap s1 !! c1 = Some (CatalogueObj a1)) as Hl1.
  { rewrite Hs1. simpl. by rewrite lookup_insert_eq. }
  assert (heap s1 !! a1 = Some (ArrayObj [])) as Hl1'.
  { rewrite Hs1. simpl. by rewrite lookup_insert_ne, lookup_insert_eq. }
  assert (c2 ≠ c1 ∧ c2 ≠ a1 ∧ a2 ≠ c1 ∧ a2 ≠ a1) as (? & ? & ? & ?).
  { repeat split; intros ->; congruence. }
  assert (heap s2 !! c1 = Some (CatalogueObj a1)) as Ht1.
  { rewrite Hs2. simpl. by rewrite !lookup_insert_ne. }
  assert (heap s2 !! a1 = Some (ArrayObj [])) as Hr1.
  { rewrite Hs2. simpl. by rewrite !lookup_insert_ne. }
  assert (heap s2 !! c2 = Some (CatalogueObj a2)) as Ht2.
  { rewrite Hs2. simpl. by rewrite lookup_insert_eq. }
  assert (heap s2 !! a2 = Some (ArrayObj [])) as Hr2.
  { rewrite Hs2. simpl. by rewrite lookup_insert_ne, lookup_insert_eq. }
  exists c1, s1, c2, s2. eexists.
  split; [done|]. split; [done|]. split; [done|].
  split. { apply catalogue_items_Some. by exists a1. }
  split. { apply catalogue_items_Some. by exists a2. }
  split. { by apply (addItem_run s2 c1 a1 []). }
  split.
  - apply (getItemCount_run _ c1 a1 [ItemBook book]); simpl.
    + by rewrite lookup_insert_ne.
    + by rewrite lookup_insert_eq.
  - apply (getItemCount_run _ c2 a2 []); simpl; by rewrite lookup_insert_ne.
Qed.

(** X11. The later class keeps the first version's interface: on a
    catalogue and a book, [addItem], [getBookCount], [findBookByTitle]
    and [getAllBooks] of the first version do what the deprecated
    [addBook], [getBookCount], [findBookByTitle] and [getAllBooks] of the
    later class do, console text included, because the discriminator of
    every book is the word the first version printed. *)
Theorem V1_methods_kept
    (s : Store) (this : loc) (book : Book) (title : string) :
  LibraryCatalogueV1.addItem this book s
  = LibraryCatalogue.addBook this book s
  ∧ LibraryCatalogueV1.getBookCount this s
    = LibraryCatalogue.getBookCount this s
  ∧ LibraryCatalogueV1.findBookByTitle this title s
    = LibraryCatalogue.findBookByTitle this title s
  ∧ LibraryCatalogueV1.getAllBooks this s
    = LibraryCatalogue.getAllBooks this s.
Proof. by repeat split. Qed.

(** ** Decimal numbers in formatted lengths *)

Section DigitFacts.
Implicit Types (s t r : string) (c : ascii).

Lemma pretty_N_char_digit (x : N) : is_digit (pretty_N_char x) = true.
Proof. unfold pretty_N_char. by repeat case_match. Qed.

Lemma pretty_N_go_digits (x : N) : ∀ s, digits s → digits (pretty_N_go x s).
Proof.
  induction (N.lt_wf_0 x) as [x _ IH]; intros s Hs.
  assert (x = 0 ∨ 0 < x)%N as [->|Hx] by lia.
  - by rewrite pretty_N_go_0.
  - rewrite pretty_N_go_step by done. apply IH.
    + by apply N.div_lt.
    + split; [apply pretty_N_char_digit|done].
Qed.

Lemma number_to_string_digits (n : Z) :
  (0 ≤ n)%Z → digits (number_to_string n).
Proof.
  unfold number_to_string, pretty, pretty_Z, pretty, pretty_positive,
    pretty, pretty_N.
  destruct n as [|p|p]; intros Hn; [done| |lia].
  case_decide; [done|]. by apply pretty_N_go_digits.
Qed.

(** A string has one decomposition into leading digits, a first
    character that is not a digit, and the rest. *)
Lemma digits_split s1 s2 c1 c2 r1 r2 :
  digits s1 → digits s2 → is_digit c1 = false → is_digit c2 = false →
  s1 +:+ String c1 r1 = s2 +:+ String c2 r2 →
  s1 = s2 ∧ c1 = c2 ∧ r1 = r2.
Proof.
  intros H1 H2 Hc1 Hc2. revert s2 H2.
  induction s1 as [|x s1 IH]; intros [|y s2] H2 Heq.
  - by injection Heq as -> ->.
  - rewrite string_app_cons in Heq. injection Heq as -> _.
    destruct H2 as [H2 _]. congruence.
  - rewrite string_app_cons in Heq. injection Heq as -> _.
    destruct H1 as [H1 _]. congruence.
  - rewrite !string_app_cons in Heq. injection Heq as -> Heq.
    destruct H1 as [_ H1], H2 as [_ H2].
    destruct (IH H1 s2 H2 Heq) as (-> & -> & ->). done.
Qed.

Lemma formatLength_nonneg (a : AudioBook) :
  (0 ≤ audio_length a)%Z →
  formatLength a
  = if (audio_length a <? 60)%Z
    then number_to_string (audio_length a `mod` 60) +:+ "m"
    else number_to_string (audio_length a / 60) +:+ "h "
         +:+ number_to_string (audio_length a `mod` 60) +:+ "m".
Proof.
  intros Hpos. unfold formatLength. rewrite Z.rem_mod_nonneg by lia.
  destruct (Z.ltb_spec (audio_length a) 60) as [Hlt|Hge].
  - rewrite Z.div_small by lia. done.
  - assert ((audio_length a / 60 >? 0)%Z = true) as ->; [|done].
    apply Z.gtb_lt. apply Z.div_str_pos. lia.
Qed.
End DigitFacts.

(** X25. On lengths from zero to [Number.MAX_SAFE_INTEGER] minutes
    [formatLength] loses nothing: two audio books whose formatted
    lengths are the same string have the same length. *)
Theorem formatLength_injective (a1 a2 : AudioBook) :
  (0 ≤ audio_length a1 ≤ MAX_SAFE_INTEGER)%Z →
  (0 ≤ audio_length a2 ≤ MAX_SAFE_INTEGER)%Z →
  formatLength a1 = formatLength a2 →
  audio_length a1 = audio_length a2.
Proof.
  intros [H1 _] [H2 _]. rewrite !formatLength_nonneg by done.
  pose proof (Z.div_mod (audio_length a1) 60 ltac:(lia)) as Hdm1.
  pose proof (Z.div_mod (audio_length a2) 60 ltac:(lia)) as Hdm2.
  pose proof (Z.mod_pos_bound (audio_length a1) 60 ltac:(lia)) as Hm1.
  pose proof (Z.mod_pos_bound (audio_length a2) 60 ltac:(lia)) as Hm2.
  assert (0 ≤ audio_length a1 / 60)%Z as Hh1 by (apply Z.div_pos; lia).
  assert (0 ≤ audio_length a2 / 60)%Z as Hh2 by (apply Z.div_pos; lia).
  assert (∀ m1 m2 : Z, (0 ≤ m1)%Z → (0 ≤ m2)%Z →
            number_to_string m1 +:+ "m" = number_to_string m2 +:+ "m" →
            m1 = m2) as Hminutes.
  { intros m1 m2 ?? Heq.
    apply digits_split in Heq as (Heq & _);
      [|by apply number_to_string_digits..|done|done].
    by apply (inj pretty) in Heq. }
  destruct (Z.ltb_spec (audio_length a1) 60) as [Hlt1|Hge1],
    (Z.ltb_spec (audio_length a2) 60) as [Hlt2|Hge2]; intros Heq.
  - apply Hminutes in Heq; [|lia..].
    rewrite !Z.mod_small in Heq by lia. done.
  - apply digits_split in Heq as (_ & Hc & _);
      [done|by apply number_to_string_digits; lia..|done|done].
  - apply digits_split in Heq as (_ & Hc & _);
      [done|by apply number_to_string_digits; lia..|done|done].
  - apply digits_split in Heq as (Hh & _ & Hrest);
      [|by apply number_to_string_digits..|done|done].
    apply (inj pretty) in Hh. injection Hrest as Hrest.
    apply Hminutes in Hrest; [|lia..]. lia.
Qed.

Lemma formatLength_injective_witness :
  (0 ≤ audio_length SampleUser.nineteen84_audio ≤ MAX_SAFE_INTEGER)%Z
  ∧ (0 ≤ audio_length (new_AudioBook 7 "Emma" "Juliet Stevenson" 720)
     ≤ MAX_SAFE_INTEGER)%Z
  ∧ formatLength SampleUser.nineteen84_audio
    = formatLength (new_AudioBook 7 "Emma" "Juliet Stevenson" 720)
  ∧ audio_length SampleUser.nineteen84_audio
    = audio_length (new_AudioBook 7 "Emma" "Juliet Stevenson" 720).
Proof.
  assert (0 ≤ 720 ≤ MAX_SAFE_INTEGER)%Z as Hrange
    by (split; vm_compute; discriminate).
  split; [exact Hrange|]. split; [exact Hrange|].
  split; [vm_compute; reflexivity|].
  apply (formatLength_injective SampleUser.nineteen84_audio
           (new_AudioBook 7 "Emma" "Juliet Stevenson" 720));
    [exact Hrange|exact Hrange|vm_compute; reflexivity].
Defined.

(** X26. On ASCII arguments [setEmail], and with it the constructor,
    does not tell letter case apart: two e-mail arguments that differ
    only in the case of their letters are both rejected with the same
    message, or both accepted, and then the same address is stored. *)
Theorem setEmail_ignores_case (u : User.User) (n e1 e2 : string) :
  JSString.ascii_only n = true →
  JSString.ascii_only e1 = true →
  JSString.ascii_only e2 = true →
  JSString.eq_ignore_case e1 e2 →
  User.setEmail u e1 = User.setEmail u e2
  ∧ User.new n e1 = User.new n e2.
Proof.
  intros _ _ _ Hcase.
  assert (∀ v, User.setEmail v e1 = User.setEmail v e2) as Hset.
  { intros v. unfold User.setEmail.
    assert (String.eqb e1 EmptyString = String.eqb e2 EmptyString) as ->
      by (by destruct Hcase).
    apply toLowerCase_eq in Hcase.
    assert (JSString.toLowerCase (Trim.trim e1)
            = JSString.toLowerCase (Trim.trim e2)) as Hlow
      by (by rewrite !toLowerCase_trim, Hcase).
    assert (String.length (Trim.trim e1) = String.length (Trim.trim e2))
      as ->.
    { by rewrite <-(toLowerCase_length (Trim.trim e1)), Hlow,
        toLowerCase_length. }
    assert (Regex.matches User.emailRegex (Trim.trim e1)
            = Regex.matches User.emailRegex (Trim.trim e2)) as ->.
    { rewrite <-(matches_toLowerCase _ (Trim.trim e1))
        by apply emailRegex_respects_lower.
      rewrite Hlow. apply matches_toLowerCase, emailRegex_respects_lower. }
    by rewrite Hlow. }
  split; [apply Hset|]. unfold User.new.
  destruct (User.setName _ n) as [u1|]; [|done]. by rewrite Hset.
Qed.

Lemma setEmail_ignores_case_witness :
  JSString.ascii_only "Bob Smith" = true
  ∧ JSString.ascii_only "Bob@Mail.COM" = true
  ∧ JSString.ascii_only "bob@mail.com" = true
  ∧ JSString.eq_ignore_case "Bob@Mail.COM" "bob@mail.com"
  ∧ User.setEmail SampleUser.alice "Bob@Mail.COM"
    = User.setEmail SampleUser.alice "bob@mail.com"
  ∧ User.new "Bob Smith" "Bob@Mail.COM" = User.new "Bob Smith" "bob@mail.com".
Proof.
  assert (JSString.eq_ignore_case "Bob@Mail.COM" "bob@mail.com") as Hcase
    by (apply toLowerCase_eq; reflexivity).
  split; [reflexivity|]. split; [reflexivity|]. split; [reflexivity|].
  split; [exact Hcase|].
  apply (setEmail_ignores_case SampleUser.alice "Bob Smith"
           "Bob@Mail.COM" "bob@mail.com");
    [reflexivity|reflexivity|reflexivity|exact Hcase].
Defined.
